(** * Pagination core of [wrapper.py]: a shallow embedding

    [Wrapper] adapts a Google API client resource (an object offering
    [list] and [list_next]) into one lazily produced stream of items.
    Python generators are embedded as explicit state machines: a state
    records the suspension point of the generator body, one [step] runs
    the body up to the next observable point, and the calls made on the
    resource are recorded in a trace of events. *)

From Stdlib Require Import ZArith Lia.
From stdpp Require Import base option list strings gmap fin_maps.

(** ** Python values used as keyword arguments *)

Inductive Value :=
| VNone
| VBool (b : bool)
| VInt (z : Z)
| VStr (s : string)
| VList (l : list string).

(** A [**kwargs] dictionary. *)
Abbreviation Kwargs := (gmap string Value).

(** Exceptions that can leave the wrapper. [HttpError] carries the
    [status_code] the handler of [_yield_all] inspects. *)
Inductive Exn :=
| HttpError (status_code : Z)
| ValueError (msg : string)
| TypeError
| AttributeError
| OtherError (name : string).

(** Python truthiness, as used by [not progress_bar]. *)
Definition truthy (v : Value) : bool :=
  match v with
  | VNone => false
  | VBool b => b
  | VInt z => negb (z =? 0)%Z
  | VStr s => negb (String.eqb s "")
  | VList l => match l with [] => false | _ => true end
  end.

(** [len(v)]: defined on strings and lists, [TypeError] (here [None])
    on the other values. *)
Definition py_len (v : Value) : option nat :=
  match v with
  | VStr s => Some (String.length s)
  | VList l => Some (length l)
  | _ => None
  end.

(** [l[i:j]] for [0 <= i <= j]: out-of-range bounds are clipped. *)
Definition slice {A} (l : list A) (i j : nat) : list A :=
  take (j - i) (drop i l).

(** [v[i:j]] on a sized value. *)
Definition py_slice (v : Value) (i j : nat) : Value :=
  match v with
  | VStr s => VStr (String.substring i (j - i) s)
  | VList l => VList (slice l i j)
  | _ => v
  end.

(** [range(start, stop, step)] for a positive [step], unrolled the way
    the iterator produces it: the next index is emitted while it is
    below [stop]. [stop] iterations always suffice. *)
Fixpoint range_from (fuel i stop step : nat) : list nat :=
  match fuel with
  | O => []
  | S fuel' =>
      if (i <? stop)%nat then i :: range_from fuel' (i + step) stop step
      else []
  end.

Definition py_range (start stop step : nat) : list nat :=
  range_from stop start stop step.

(** The slices [ids[i : i + 50]] taken by the loop of [yield_all]. *)
Definition id_batches {A} (ids : list A) : list (list A) :=
  (λ i, slice ids i (i + 50)) <$> py_range 0 (length ids) 50.

(** ** Generators *)

(** What one step of a generator body shows to its driver. [Tau] is an
    internal step: the body went on without reaching a [yield]. *)
Inductive Signal (Item : Type) :=
| Yield (x : Item)
| Tau
| Return
| Raise (e : Exn).
Arguments Yield {Item} x.
Arguments Tau {Item}.
Arguments Return {Item}.
Arguments Raise {Item} e.

(** Result of one [next(gen)]. *)
Inductive Pulled (Item : Type) :=
| PItem (x : Item)
| StopIteration
| Raised (e : Exn).
Arguments PItem {Item} x.
Arguments StopIteration {Item}.
Arguments Raised {Item} e.

Section Generator.
Context {Event Item St : Type}.
Variable step : St → list Event * Signal Item * St.

(** [next(gen)]: run the body until it yields, returns or raises.
    [None] means the step budget ran out first. *)
Fixpoint next (fuel : nat) (g : St) : option (list Event * Pulled Item * St) :=
  match fuel with
  | O => None
  | S fuel' =>
      let '(ev, sig, g') := step g in
      match sig with
      | Yield x => Some (ev, PItem x, g')
      | Return => Some (ev, StopIteration, g')
      | Raise e => Some (ev, Raised e, g')
      | Tau =>
          match next fuel' g' with
          | Some (ev', r, g'') => Some (ev ++ ev', r, g'')
          | None => None
          end
      end
  end.

(** A consumer that pulls until the generator stops, as [list(gen)]
    and an unbroken [for] loop do: the trace, the items received, the
    exception that ended the stream (if any) and the final state. *)
Fixpoint drain (fuel : nat) (g : St)
  : option (list Event * list Item * option Exn * St) :=
  match fuel with
  | O => None
  | S fuel' =>
      let '(ev, sig, g') := step g in
      match sig with
      | Return => Some (ev, [], None, g')
      | Raise e => Some (ev, [], Some e, g')
      | Yield x =>
          match drain fuel' g' with
          | Some (ev', xs, r, g'') => Some (ev ++ ev', x :: xs, r, g'')
          | None => None
          end
      | Tau =>
          match drain fuel' g' with
          | Some (ev', xs, r, g'') => Some (ev ++ ev', xs, r, g'')
          | None => None
          end
      end
  end.

(** [n] raw steps of the body, whatever they signal: the events and
    the items produced so far and the state reached. *)
Fixpoint run (n : nat) (g : St) : list Event * list Item * St :=
  match n with
  | O => ([], [], g)
  | S n' =>
      let '(ev, sig, g') := step g in
      let '(ev', xs, g'') := run n' g' in
      (ev ++ ev', match sig with Yield x => x :: xs | _ => xs end, g'')
  end.

(** The consumer pulled the items [xs] one [next] at a time and then
    stopped pulling, leaving the generator suspended in [g']. *)
Inductive pulls : St → list Event → list Item → St → Prop :=
| pulls_nil g : pulls g [] [] g
| pulls_cons g fuel ev x g1 ev' xs g2 :
    next fuel g = Some (ev, PItem x, g1) →
    pulls g1 ev' xs g2 →
    pulls g (ev ++ ev') (x :: xs) g2.

(** Zero or more steps, none of which ends the generator. *)
Inductive advances : St → list Event → list Item → St → Prop :=
| advances_refl g : advances g [] [] g
| advances_yield g ev x g1 ev' xs g2 :
    step g = (ev, Yield x, g1) →
    advances g1 ev' xs g2 →
    advances g (ev ++ ev') (x :: xs) g2
| advances_tau g ev g1 ev' xs g2 :
    step g = (ev, Tau, g1) →
    advances g1 ev' xs g2 →
    advances g (ev ++ ev') xs g2.
End Generator.

(** ** The wrapped resource *)

(** A member of a Python object as [hasattr] and [callable] see it. *)
Inductive Member (F : Type) :=
| Absent
| NotCallable
| Callable (f : F).
Arguments Absent {F}.
Arguments NotCallable {F}.
Arguments Callable {F} f.

Definition hasattr {F} (m : Member F) : bool :=
  match m with Absent => false | _ => true end.

Definition callable {F} (m : Member F) : bool :=
  match m with Callable _ => true | _ => false end.

(** Calling a member: [AttributeError] when it is missing, [TypeError]
    when it is not callable. *)
Definition call {F} (m : Member F) : Exn + F :=
  match m with
  | Absent => inl AttributeError
  | NotCallable => inl TypeError
  | Callable f => inr f
  end.

(** One response of the endpoint, of the shape the wrapper reads:
    [res["pageInfo"]["totalResults"]] and [res["items"]], both always
    present. *)
Record Response (Item : Type) := {
  totalResults : Z;
  items : list Item;
}.
Arguments totalResults {Item} r.
Arguments items {Item} r.

(** The object handed to [Wrapper]: [list], called with the keyword
    arguments, builds the first request; [list_next(req, res)] builds
    the following one, or gives [None] after the last page. Neither
    performs the request: that is [req.execute()]. *)
Record Resource (Item Request : Type) := {
  list_ : Member (Kwargs → Request);
  list_next : Member (Request → Response Item → option Request);
}.
Arguments list_ {Item Request} r.
Arguments list_next {Item Request} r.

Record Wrapper (Item Request : Type) := {
  _resource : Resource Item Request;
}.
Arguments _resource {Item Request} w.

(** [Wrapper.__init__]. *)
Definition __init__ {Item Request} (resource : Resource Item Request)
  : Exn + Wrapper Item Request :=
  if negb (hasattr (list_ resource)
           && callable (list_ resource)
           && hasattr (list_next resource)
           && callable (list_next resource))
  then inl (ValueError "Resource must implement the `list` and`list_next` methods")
  else inr {| _resource := resource |}.

(** ** Events *)

Inductive Bar := PageBar | BatchBar.

(** What the wrapper does to its collaborators. [EvProgress bar total]
    is one [update()] of an enabled tqdm bar whose [total] is [total];
    a disabled bar ignores updates and leaves no event. *)
Inductive Event (Item Request : Type) :=
| EvList (kwargs : Kwargs)
| EvExecute (req : Request) (r : Exn + Response Item)
| EvListNext (req : Request) (res : Response Item) (nxt : option Request)
| EvProgress (bar : Bar) (total : Z)
| EvLogError (e : Exn).
Arguments EvList {Item Request} kwargs.
Arguments EvExecute {Item Request} req r.
Arguments EvListNext {Item Request} req res nxt.
Arguments EvProgress {Item Request} bar total.
Arguments EvLogError {Item Request} e.

(** [math.ceil(n / 50)] for an integer [n], computed on integers; the
    source divides as floats, which gives the same result for every
    [n] below [2^53] in magnitude. *)
Definition ceil50 (n : Z) : Z := ((n + 49) / 50)%Z.

(** The update of the batch bar, made by [trange] when the body of the
    loop is over for one batch. *)
Definition batch_update {Item Request} (progress_bar : bool) (total : Z)
  : list (Event Item Request) :=
  if progress_bar then [EvProgress BatchBar total] else [].

Section Wrapper.
Context {Item Request : Type}.
(** [req.execute()]: the response of the endpoint, or the exception
    the call raises. *)
Variable execute : Request → Exn + Response Item.
Variable self : Wrapper Item Request.

(** *** [_yield_all] *)

(** Suspension points of the body of [_yield_all]: not started, at the
    test of the [while], inside the [for] over the items of a page,
    finished. *)
Inductive PageGen :=
| PStart (progress_bar : bool) (desc : Value) (kwargs : Kwargs)
| PWhile (progress_bar : bool) (req : option Request)
| PFor (progress_bar : bool) (req : Request) (res : Response Item)
       (rest : list Item)
| PDone.

(** The [except HttpError] clause: 404 ends the stream normally, any
    other [HttpError] is logged and raised again; an exception of
    another class is not caught at all. *)
Definition handle (req : Request) (e : Exn)
  : list (Event Item Request) * Signal Item * PageGen :=
  match e with
  | HttpError status_code =>
      if (status_code =? 404)%Z then ([EvExecute req (inl e)], Return, PDone)
      else ([EvExecute req (inl e); EvLogError e], Raise e, PDone)
  | _ => ([EvExecute req (inl e)], Raise e, PDone)
  end.

Definition step_page (g : PageGen)
  : list (Event Item Request) * Signal Item * PageGen :=
  match g with
  | PStart progress_bar desc kwargs =>
      let kwargs := <["maxResults" := VInt 50]> kwargs in
      match call (list_ (_resource self)) with
      | inl e => ([], Raise e, PDone)
      | inr f => ([EvList kwargs], Tau, PWhile progress_bar (Some (f kwargs)))
      end
  | PWhile progress_bar None => ([], Return, PDone)
  | PWhile progress_bar (Some req) =>
      match execute req with
      | inl e => handle req e
      | inr res =>
          (EvExecute req (inr res)
             :: (if progress_bar
                 then [EvProgress PageBar (ceil50 (totalResults res))]
                 else []),
           Tau, PFor progress_bar req res (items res))
      end
  | PFor progress_bar req res (item :: rest) =>
      ([], Yield item, PFor progress_bar req res rest)
  | PFor progress_bar req res [] =>
      match call (list_next (_resource self)) with
      | inl e => ([], Raise e, PDone)
      | inr f =>
          ([EvListNext req res (f req res)], Tau,
           PWhile progress_bar (f req res))
      end
  | PDone => ([], Return, PDone)
  end.

(** [self._yield_all(progress_bar, desc, **kwargs)]: calling a
    generator function runs none of its body. *)
Definition _yield_all (progress_bar : bool) (desc : Value) (kwargs : Kwargs)
  : PageGen :=
  PStart progress_bar desc kwargs.

(** *** [yield_all] *)

(** Suspension points of [yield_all]: not started; at the head of the
    [for i in trange(...)] loop with the indices still to come;
    delegating ([yield from]) to the stream of one batch; delegating to
    the single unsplit stream; finished. [total] is the length of the
    range, the [total] of the batch bar. *)
Inductive AllGen :=
| AStart (progress_bar : bool) (desc : Value) (kwargs : Kwargs)
| AFor (progress_bar : bool) (kwargs : Kwargs) (ids : Value) (total : Z)
       (pending : list nat)
| AInner (progress_bar : bool) (kwargs : Kwargs) (ids : Value) (total : Z)
         (pending : list nat) (inner : PageGen)
| APlain (inner : PageGen)
| ADone.

Definition step_all (g : AllGen)
  : list (Event Item Request) * Signal Item * AllGen :=
  match g with
  | AStart progress_bar desc kwargs =>
      match kwargs !! "id" with
      | Some v =>
          match py_len v with
          | None => ([], Raise TypeError, ADone)
          | Some n =>
              if (50 <? n)%nat then
                let ids := v in
                let kwargs := delete "id" kwargs in
                let r := py_range 0 n 50 in
                ([], Tau,
                 AFor progress_bar kwargs ids (Z.of_nat (length r)) r)
              else
                ([], Tau, APlain (_yield_all progress_bar desc kwargs))
          end
      | None => ([], Tau, APlain (_yield_all progress_bar desc kwargs))
      end
  | AFor progress_bar kwargs ids total [] => ([], Return, ADone)
  | AFor progress_bar kwargs ids total (i :: pending) =>
      ([], Tau,
       AInner progress_bar kwargs ids total pending
         (_yield_all false (VStr "")
            (<["id" := py_slice ids i (i + 50)]> kwargs)))
  | AInner progress_bar kwargs ids total pending inner =>
      match step_page inner with
      | (ev, Yield item, inner') =>
          (ev, Yield item,
           AInner progress_bar kwargs ids total pending inner')
      | (ev, Tau, inner') =>
          (ev, Tau, AInner progress_bar kwargs ids total pending inner')
      | (ev, Return, _) =>
          (ev ++ batch_update progress_bar total,
           Tau, AFor progress_bar kwargs ids total pending)
      | (ev, Raise e, _) => (ev, Raise e, ADone)
      end
  | APlain inner =>
      match step_page inner with
      | (ev, Yield item, inner') => (ev, Yield item, APlain inner')
      | (ev, Tau, inner') => (ev, Tau, APlain inner')
      | (ev, Return, _) => (ev, Return, ADone)
      | (ev, Raise e, _) => (ev, Raise e, ADone)
      end
  | ADone => ([], Return, ADone)
  end.

(** [self.yield_all(progress_bar, desc, **kwargs)]. *)
Definition yield_all (progress_bar : bool) (desc : Value) (kwargs : Kwargs)
  : AllGen :=
  AStart progress_bar desc kwargs.

(** *** [list_all] *)

(** [self.yield_all] called with a whole dictionary of keyword
    arguments, as [list_all] does: the keys [progress_bar] and [desc]
    bind the parameters of these names (with their defaults when
    missing), the other keys are the keyword arguments of the
    request. *)
Definition yield_all_kw (kwargs : Kwargs) : AllGen :=
  yield_all (from_option truthy false (kwargs !! "progress_bar"))
    (default (VStr "") (kwargs !! "desc"))
    (delete "desc" (delete "progress_bar" kwargs)).

(** [list_all]: the list built from the stream, or the exception that
    ended it. *)
Definition list_all (fuel : nat) (kwargs : Kwargs)
  : option (list (Event Item Request) * (Exn + list Item)) :=
  match drain step_all fuel (yield_all_kw kwargs) with
  | Some (ev, xs, None, _) => Some (ev, inr xs)
  | Some (ev, _, Some e, _) => Some (ev, inl e)
  | None => None
  end.
End Wrapper.

(** ** Vocabulary of the statements *)

Section Generator_spec.
Context {Event Item St : Type}.
Variable step : St → list Event * Signal Item * St.

(** Draining [g] ends, whatever budget at least [n] it is given, with
    the trace [tr], the items [xs], the exception [r] (or none) and
    the final state [gf]. *)
Definition finishes (g : St) (tr : list Event) (xs : list Item)
    (r : option Exn) (gf : St) : Prop :=
  ∃ n, ∀ fuel, (n ≤ fuel)%nat → drain step fuel g = Some (tr, xs, r, gf).
End Generator_spec.

Section Trace.
Context {Item Request : Type}.
Implicit Types tr : list (Event Item Request).

(** The requests executed, the pages received, the keyword arguments
    of the [list] calls and the progress updates of a trace. *)
Definition executed tr : list Request :=
  omap (λ ev, match ev with EvExecute req _ => Some req | _ => None end) tr.

Definition fetched tr : list (Response Item) :=
  omap (λ ev, match ev with EvExecute _ (inr res) => Some res | _ => None end) tr.

Definition listed tr : list Kwargs :=
  omap (λ ev, match ev with EvList kw => Some kw | _ => None end) tr.

Definition progress tr : list (Bar * Z) :=
  omap (λ ev, match ev with EvProgress b t => Some (b, t) | _ => None end) tr.

Variable execute : Request → Exn + Response Item.
Variable lnext : Request → Response Item → option Request.

(** [PageSeq o pages o']: starting with the request [o], the endpoint
    answers the pages [pages] one after the other, each request being
    the [list_next] of the page before, and [o'] is what [list_next]
    gives after the last of them. *)
Inductive PageSeq
  : option Request → list (Request * Response Item) → option Request → Prop :=
| PageSeq_nil o : PageSeq o [] o
| PageSeq_cons req res pages o :
    execute req = inr res →
    PageSeq (lnext req res) pages o →
    PageSeq (Some req) ((req, res) :: pages) o.

(** The events of one successful turn of the [while] loop. *)
Definition page_events (progress_bar : bool) (p : Request * Response Item)
  : list (Event Item Request) :=
  EvExecute p.1 (inr p.2)
    :: (if progress_bar then [EvProgress PageBar (ceil50 (totalResults p.2))]
        else [])
    ++ [EvListNext p.1 p.2 (lnext p.1 p.2)].

Definition pages_trace (progress_bar : bool)
    (pages : list (Request * Response Item)) : list (Event Item Request) :=
  pages ≫= page_events progress_bar.

Definition pages_items (pages : list (Request * Response Item)) : list Item :=
  pages ≫= (λ p, items p.2).
End Trace.

(** ** Invariants of the stream of [yield_all] *)

Section Invariants.
Context {Item Request : Type}.
Implicit Types tr : list (Event Item Request).

(** *** Keyword arguments of the [list] calls *)

(** [kw], the keyword arguments of one [list] call, against [kwargs],
    those of the caller: [maxResults] is 50, [id] is the caller's or
    one slice [ids[i : i + 50]] of an oversized one, and every other
    key is as the caller gave it. *)
Definition list_call_ok (kwargs kw : Kwargs) : Prop :=
  kw !! "maxResults" = Some (VInt 50)
  ∧ (∀ k, k ≠ "id" → k ≠ "maxResults" → kw !! k = kwargs !! k)
  ∧ (kw !! "id" = kwargs !! "id"
     ∨ ∃ ids len i,
         kwargs !! "id" = Some ids ∧ py_len ids = Some len
         ∧ (50 < len)%nat ∧ i ∈ py_range 0 len 50
         ∧ kw !! "id" = Some (py_slice ids i (i + 50))).

Definition page_from (kwargs : Kwargs) (g : @PageGen Item Request) : Prop :=
  match g with
  | PStart _ _ kw => list_call_ok kwargs (<["maxResults" := VInt 50]> kw)
  | _ => True
  end.

Definition all_from (kwargs : Kwargs) (g : @AllGen Item Request) : Prop :=
  match g with
  | AStart _ _ kw => kw = kwargs
  | AFor _ kw ids _ pending =>
      kwargs !! "id" = Some ids ∧ kw = delete "id" kwargs
      ∧ ∃ len, py_len ids = Some len ∧ (50 < len)%nat
               ∧ pending ⊆ py_range 0 len 50
  | AInner _ kw ids _ pending inner =>
      (kwargs !! "id" = Some ids ∧ kw = delete "id" kwargs
       ∧ ∃ len, py_len ids = Some len ∧ (50 < len)%nat
                ∧ pending ⊆ py_range 0 len 50)
      ∧ page_from kwargs inner
  | APlain inner => page_from kwargs inner
  | ADone => True
  end.

(** *** Progress of a split stream *)

(** A page stream whose bar is disabled. *)
Definition quiet (g : @PageGen Item Request) : Prop :=
  match g with
  | PStart pb _ _ | PWhile pb _ | PFor pb _ _ _ => pb = false
  | PDone => True
  end.

(** Inside the loop over the batches, with the batch bar enabled;
    [total] is the total of that bar. *)
Definition in_batches (total : Z) (g : @AllGen Item Request) : Prop :=
  match g with
  | AFor pb _ _ t _ => pb = true ∧ t = total
  | AInner pb _ _ t _ inner => pb = true ∧ t = total ∧ quiet inner
  | ADone => True
  | _ => False
  end.

(** Batches whose stream is not over yet. *)
Definition remaining (g : @AllGen Item Request) : nat :=
  match g with
  | AFor _ _ _ _ pending => length pending
  | AInner _ _ _ _ pending _ => S (length pending)
  | _ => 0
  end.

(** *** Laziness *)

Definition is_progress (ev : Event Item Request) : Prop :=
  match ev with EvProgress _ _ => True | _ => False end.

(** Items of the page at hand that are still to be yielded. *)
Definition pending_page (g : @PageGen Item Request) : list Item :=
  match g with PFor _ _ _ rest => rest | _ => [] end.

Definition pending_items (g : @AllGen Item Request) : list Item :=
  match g with
  | AInner _ _ _ _ _ inner | APlain inner => pending_page inner
  | _ => []
  end.

(** The items [ys] delivered so far against the trace [tr]: all that
    was fetched has been delivered, but for the items [rest] of the
    page fetched last, and nothing but progress updates happened
    since that fetch. *)
Definition fetched_for (tr : list (Event Item Request)) (ys rest : list Item)
  : Prop :=
  (rest = [] ∧ ys = concat (items <$> fetched tr))
  ∨ ∃ tr0 req page tail pre,
      tr = tr0 ++ EvExecute req (inr page) :: tail
      ∧ Forall is_progress tail
      ∧ items page = pre ++ rest
      ∧ ys = concat (items <$> fetched tr0) ++ pre.

(** After a pull that returned an item: the page fetched last holds
    that item [x], every page fetched before it has been delivered in
    full, and no call on the resource followed that fetch. *)
Definition no_fetch_ahead (tr : list (Event Item Request)) (ys : list Item)
  : Prop :=
  ∃ tr0 req page tail pre x rest,
    tr = tr0 ++ EvExecute req (inr page) :: tail
    ∧ Forall is_progress tail
    ∧ items page = pre ++ x :: rest
    ∧ ys = concat (items <$> fetched tr0) ++ pre ++ [x].
End Invariants.

(** ** Resources used in the examples *)

(** A scripted endpoint whose requests are page numbers: request [n]
    is answered by entry [n] of the script, a list of items or an
    exception, and [list_next] moves on to the next entry while there
    is one. *)
Definition script_execute (script : list (Exn + list nat)) (n : nat)
  : Exn + Response nat :=
  match script !! n with
  | Some (inr its) => inr {| totalResults := 120; items := its |}
  | Some (inl e) => inl e
  | None => inl (HttpError 404)
  end.

Definition script_list (kwargs : Kwargs) : nat := 0.

Definition script_list_next (script : list (Exn + list nat)) (n : nat)
    (res : Response nat) : option nat :=
  if (S n <? length script)%nat then Some (S n) else None.

Definition script_resource (script : list (Exn + list nat)) : Resource nat nat :=
  {| list_ := Callable script_list;
     list_next := Callable (script_list_next script) |}.

(** An endpoint that answers a request for identifiers with one page
    holding these identifiers. *)
Definition echo_list (kwargs : Kwargs) : list string :=
  match kwargs !! "id" with Some (VList l) => l | _ => [] end.

Definition echo_execute (req : list string) : Exn + Response string :=
  inr {| totalResults := Z.of_nat (length req); items := req |}.

Definition echo_list_next (req : list string) (res : Response string)
  : option (list string) := None.

Definition echo_resource : Resource string (list string) :=
  {| list_ := Callable echo_list; list_next := Callable echo_list_next |}.

(** [n] distinct one-character identifiers. *)
Definition ids_of (n : nat) : list string :=
  (λ k, String (Ascii.ascii_of_nat (33 + k)) EmptyString) <$> seq 0 n.

(** A page of the scripted endpoint. *)
Definition page_of (its : list nat) : Response nat :=
  {| totalResults := 120; items := its |}.

(** Three pages, the second one empty. *)
Definition three_pages : list (Exn + list nat) := [inr [1; 2]; inr []; inr [3]]%nat.

(** One page, then a failure with the given status code. *)
Definition page_then_error (status_code : Z) : list (Exn + list nat) :=
  [inr [1; 2]%nat; inl (HttpError status_code)].

Definition script_wrapper (script : list (Exn + list nat)) : Wrapper nat nat :=
  {| _resource := script_resource script |}.

Definition echo_wrapper : Wrapper string (list string) :=
  {| _resource := echo_resource |}.

Definition part_snippet : Kwargs := {["part" := VStr "snippet"]}.

(** A request for the first [n] identifiers. *)
Definition ids_kwargs (n : nat) : Kwargs := {["id" := VList (ids_of n)]}.

(** What the stream of one batch [b] does on the echoing endpoint, and
    what it delivers: one page, holding [b]. *)
Definition echo_batch (n : nat) (b : list string)
  : list (Event string (list string)) * list string :=
  let pages := [(b, {| totalResults := Z.of_nat (length b); items := b |})] in
  (EvList (<["maxResults" := VInt 50]>
             (<["id" := VList b]> (delete "id" (ids_kwargs n))))
     :: pages_trace echo_list_next false pages,
   pages_items pages).

(** ** The callers in [main.py] *)

(** The keyword arguments of the request of [get_videos]. *)
Definition playlist_kwargs (playlist_id : string) : Kwargs :=
  <["part" := VStr "snippet,contentDetails"]>
    (<["playlistId" := VStr playlist_id]> ∅).

(** The keyword arguments of the request of [get_subscriptions]. *)
Definition subscriptions_kwargs : Kwargs :=
  <["part" := VStr "snippet"]> (<["mine" := VBool true]> ∅).

Section Callers.
Context {Item Request : Type}.
Variable execute : Request → Exn + Response Item.

(** [Wrapper(resource).list_all(...)] with the keyword arguments
    [kwargs]: what [get_subscriptions], [get_upload_playlists] and
    [get_video_durations] do with the resource before they hand the
    items to pandas. The constructor may raise before any stream
    exists. *)
Definition wrapped_list_all (resource : Resource Item Request) (fuel : nat)
    (kwargs : Kwargs) : option (list (Event Item Request) * (Exn + list Item)) :=
  match __init__ resource with
  | inl e => Some ([], inl e)
  | inr self => list_all execute self fuel kwargs
  end.

(** The items of [get_subscriptions]; [resource] is
    [client.subscriptions()]. *)
Definition get_subscriptions_items (resource : Resource Item Request)
    (fuel : nat) :=
  wrapped_list_all resource fuel subscriptions_kwargs.

(** The items of [get_upload_playlists]; [resource] is
    [client.channels()]. *)
Definition get_upload_playlists_items (resource : Resource Item Request)
    (fuel : nat) (channeld_ids : list string) :=
  wrapped_list_all resource fuel
    (<["part" := VStr "contentDetails"]> (<["id" := VList channeld_ids]> ∅)).

(** The items of [get_video_durations]; [resource] is
    [client.videos()]. *)
Definition get_video_durations_items (resource : Resource Item Request)
    (fuel : nat) (video_ids : list string) :=
  wrapped_list_all resource fuel
    (<["part" := VStr "contentDetails"]>
       (<["id" := VList video_ids]>
          (<["progress_bar" := VBool true]>
             (<["desc" := VStr "Get video durations"]> ∅)))).

(** The day on which an item was published,
    [datetime.fromisoformat(item["snippet"]["publishedAt"]).date()], as
    a day number; items are taken to carry a well-formed date. *)
Variable published : Item → Z.

(** The loop of [get_videos] over the stream [g]: the items are
    appended until the first one published before [last_year], where
    the loop breaks and the generator is abandoned. *)
Fixpoint collect_recent (self : Wrapper Item Request) (last_year : Z)
    (fuel : nat) (g : AllGen)
  : option (list (Event Item Request) * (Exn + list Item)) :=
  match fuel with
  | O => None
  | S fuel' =>
      match next (step_all execute self) fuel g with
      | None => None
      | Some (ev, StopIteration, _) => Some (ev, inr [])
      | Some (ev, Raised e, _) => Some (ev, inl e)
      | Some (ev, PItem item, g') =>
          if (published item <? last_year)%Z then Some (ev, inr [])
          else
            match collect_recent self last_year fuel' g' with
            | Some (ev', inr items) => Some (ev ++ ev', inr (item :: items))
            | Some (ev', inl e) => Some (ev ++ ev', inl e)
            | None => None
            end
      end
  end.

(** The items of [get_videos] on the day [today]; [resource] is
    [client.playlistItems()]. *)
Definition get_videos_items (resource : Resource Item Request) (today : Z)
    (fuel : nat) (playlist_id : string) :=
  let last_year := (today - 365)%Z in
  match __init__ resource with
  | inl e => Some ([], inl e)
  | inr self =>
      collect_recent self last_year fuel
        (yield_all false (VStr "") (playlist_kwargs playlist_id))
  end.
End Callers.

(** ** More vocabulary *)

Section More_spec.
Context {Item Request : Type}.
Implicit Types tr : list (Event Item Request).

(** A trace without its progress updates. *)
Definition silent tr : list (Event Item Request) :=
  omap (λ ev, match ev with EvProgress _ _ => None | _ => Some ev end) tr.

(** The same suspension point with the progress bar disabled. *)
Definition mute_page (g : @PageGen Item Request) : @PageGen Item Request :=
  match g with
  | PStart _ desc kwargs => PStart false desc kwargs
  | PWhile _ req => PWhile false req
  | PFor _ req res rest => PFor false req res rest
  | PDone => PDone
  end.

Definition mute_all (g : @AllGen Item Request) : @AllGen Item Request :=
  match g with
  | AStart _ desc kwargs => AStart false desc kwargs
  | AFor _ kwargs ids total pending => AFor false kwargs ids total pending
  | AInner _ kwargs ids total pending inner =>
      AInner false kwargs ids total pending (mute_page inner)
  | APlain inner => APlain (mute_page inner)
  | ADone => ADone
  end.

(** The events with which a stream ends when [execute] raised [e]. *)
Definition failure (req : Request) (e : Exn) : list (Event Item Request) :=
  EvExecute req (inl e)
    :: match e with HttpError _ => [EvLogError e] | _ => [] end.

(** The keyword arguments of the [list] call for the batch [b] of the
    caller's [kwargs]. *)
Definition batch_kw (kwargs : Kwargs) (b : Value) : Kwargs :=
  <["maxResults" := VInt 50]> (<["id" := b]> (delete "id" kwargs)).
End More_spec.

Section Split_spec.
Context {Item Request : Type}.

(** The requests a stream has executed when it went through [pages]
    and then met [o]: those of the pages, and [o] itself when there is
    one. *)
Definition requests_of (r : list (Request * Response Item) * option Request)
  : list Request :=
  r.1.*1 ++ option_list r.2.
End Split_spec.

Section More_invariants.
Context {Item Request : Type}.
Implicit Types tr : list (Event Item Request).

(** The page stream [g] runs with the progress flag [pb]. *)
Definition bar_is (pb : bool) (g : @PageGen Item Request) : Prop :=
  match g with
  | PStart pb' _ _ | PWhile pb' _ | PFor pb' _ _ _ => pb' = pb
  | PDone => True
  end.

(** The one progress update that a fetched page causes when the page
    bar is enabled. *)
Definition page_update (res : Response Item) : Bar * Z :=
  (PageBar, ceil50 (totalResults res)).

(** The [list] calls made so far, [listed tr], against the indices
    [range] of the loop over the batches: they are the calls for the
    batches already begun, in order. *)
Definition batches_listed (kwargs : Kwargs) (ids : Value) (range : list nat)
    tr (g : @AllGen Item Request) : Prop :=
  let kw_of i := batch_kw kwargs (py_slice ids i (i + 50)) in
  match g with
  | AFor _ kw ids' _ pending =>
      kw = delete "id" kwargs ∧ ids' = ids
      ∧ ∃ done, range = done ++ pending ∧ listed tr = kw_of <$> done
  | AInner _ kw ids' _ pending inner =>
      kw = delete "id" kwargs ∧ ids' = ids
      ∧ ∃ done i, range = done ++ i :: pending
          ∧ match inner with
            | PStart _ _ kwi =>
                kwi = <["id" := py_slice ids i (i + 50)]> kw
                ∧ listed tr = kw_of <$> done
            | _ => listed tr = kw_of <$> (done ++ [i])
            end
  | ADone => ∃ done, done `prefix_of` range ∧ listed tr = kw_of <$> done
  | _ => False
  end.
End More_invariants.

Section Callers_spec.
Context {Item Request : Type}.
Variable execute : Request → Exn + Response Item.
Variable published : Item → Z.

(** The loop of [get_videos] over [g] ends, whatever budget at least
    [n] it is given, with the trace and the result [res]. *)
Definition collects (self : Wrapper Item Request) (last_year : Z)
    (g : AllGen) (res : list (Event Item Request) * (Exn + list Item)) : Prop :=
  ∃ n, ∀ fuel, (n ≤ fuel)%nat →
    collect_recent execute published self last_year fuel g = Some res.

End Callers_spec.

(** ** More resources for the examples *)

(** The echoing endpoint, except that a request whose first identifier
    is "S" raises [e]. Among the identifiers [ids_of 130], "S" is the
    first one of the second batch. *)
Definition failing_execute (e : Exn) (req : list string)
  : Exn + Response string :=
  match req with
  | first :: _ => if String.eqb first "S" then inl e else echo_execute req
  | [] => echo_execute req
  end.

(** The three batches of [ids_of 130]. *)
Definition batch_1 : list string := take 50 (ids_of 130).
Definition batch_2 : list string := take 50 (drop 50 (ids_of 130)).
Definition batch_3 : list string := drop 100 (ids_of 130).

(** The page with which the echoing endpoint answers [b]. *)
Definition echo_page (b : list string) : Response string :=
  {| totalResults := Z.of_nat (length b); items := b |}.

(** Two pages of videos, given by the day they were published, newest
    first, and a third request that would fail. *)
Definition videos_script : list (Exn + list nat) :=
  [inr [900; 800]; inr [700; 100; 50]; inl (HttpError 500)]%nat.

(** An [id] given as one comma-separated string of 65 characters. *)
Definition long_id : string :=
  "aaaaaaaaaa,bbbbbbbbbb,cccccccccc,dddddddddd,eeeeeeeeee,ffffffffff".

Definition long_id_kwargs : Kwargs := {["id" := VStr long_id]}.

(** Keyword arguments with both arguments of the progress bar. *)
Definition bar_kwargs : Kwargs :=
  <["progress_bar" := VBool true]> (<["desc" := VStr "Get items"]> part_snippet).

(** ** Calls and updates in order *)

Section Order_spec.
Context {Item Request : Type}.
Implicit Types tr : list (Event Item Request).

(** The keyword arguments of the [list] calls that the stream of
    [yield_all] makes for the caller's [kwargs], in the order of the
    calls: with an [id] of more than 50 elements, one call for each
    slice [ids[i : i + 50]], [id] being that slice; with a shorter
    [id] or none, a single call; with an [id] that has no length, no
    call. *)
Definition list_calls_of (kwargs : Kwargs) : list Kwargs :=
  match kwargs !! "id" with
  | Some ids =>
      match py_len ids with
      | Some len =>
          if (50 <? len)%nat
          then (λ i, batch_kw kwargs (py_slice ids i (i + 50)))
                 <$> py_range 0 len 50
          else [<["maxResults" := VInt 50]> kwargs]
      | None => []
      end
  | None => [<["maxResults" := VInt 50]> kwargs]
  end.

(** An event with which the stream of a batch is over: [list_next]
    gave [None], or [execute] raised the 404 [HttpError]. *)
Definition ends_batch (ev : Event Item Request) : bool :=
  match ev with
  | EvListNext _ _ None => true
  | EvExecute _ (inl (HttpError status_code)) => (status_code =? 404)%Z
  | _ => false
  end.

(** The trace [tr], which has no progress update, with one update of
    the batch bar put right after every event that ends a batch. *)
Definition with_batch_updates (total : Z) tr : list (Event Item Request) :=
  tr ≫= λ ev, if ends_batch ev then [ev; EvProgress BatchBar total] else [ev].

(** The trace [tr] against the suspension point [g] of a split stream
    with the bar enabled: every batch that is over has been reported,
    right after the event that ended it; only when [list_next] has
    just given [None], and the [while] has not been tested since, the
    update for that batch is still to come. *)
Definition batch_reported (total : Z) tr (g : @AllGen Item Request) : Prop :=
  match g with
  | AStart pb _ kw =>
      pb = true ∧ tr = []
      ∧ ∃ ids len, kw !! "id" = Some ids ∧ py_len ids = Some len
                   ∧ (50 < len)%nat ∧ total = ceil50 (Z.of_nat len)
  | AFor pb _ _ t _ =>
      pb = true ∧ t = total ∧ tr = with_batch_updates total (silent tr)
  | AInner pb _ _ t _ inner =>
      pb = true ∧ t = total
      ∧ match inner with
        | PStart pbi _ _ | PWhile pbi (Some _) | PFor pbi _ _ _ =>
            pbi = false ∧ tr = with_batch_updates total (silent tr)
        | PWhile pbi None =>
            pbi = false
            ∧ ∃ tr0 req res,
                tr = tr0 ++ [EvListNext req res None]
                ∧ tr0 = with_batch_updates total (silent tr0)
        | PDone => False
        end
  | ADone => tr = with_batch_updates total (silent tr)
  | APlain _ => False
  end.

(** Every failure of [execute] in [tr] is the 404 [HttpError]. *)
Definition only_not_found tr : Prop :=
  Forall (λ ev, match ev with
                | EvExecute _ (inl e) => e = HttpError 404
                | _ => True
                end) tr.
End Order_spec.

Section List_all_spec.
Context {Item Request : Type}.
Variable execute : Request → Exn + Response Item.
Variable self : Wrapper Item Request.

(** [list_all] returns the list [xs], with the trace [tr]: with a large
    enough budget every invocation returns it, with this trace; no
    invocation returns anything else; and [xs] is what a consumer of
    [yield_all] gets by pulling one [next] at a time until the [next]
    that ends the stream, [tr] being the trace of that one
    consumption. *)
Definition list_all_gives (kwargs : Kwargs)
    (tr : list (Event Item Request)) (xs : list Item) : Prop :=
  (∃ n, ∀ fuel, (n ≤ fuel)%nat →
     list_all execute self fuel kwargs = Some (tr, inr xs))
  ∧ (∀ fuel r, list_all execute self fuel kwargs = Some r → r = (tr, inr xs))
  ∧ ∃ ev1 g1 ev2 gf fuel,
      pulls (step_all execute self) (yield_all_kw kwargs) ev1 xs g1
      ∧ next (step_all execute self) fuel g1 = Some (ev2, StopIteration, gf)
      ∧ tr = ev1 ++ ev2.
End List_all_spec.

(** * Properties *)

(** ** Generators in general *)

Section Generator_facts.
Context {Event Item St : Type}.
Variable step : St → list Event * Signal Item * St.

Lemma run_step n g ev sig g1 :
  step g = (ev, sig, g1) →
  run step (S n) g
  = (ev ++ (run step n g1).1.1,
     match sig with
     | Yield x => x :: (run step n g1).1.2
     | _ => (run step n g1).1.2
     end, (run step n g1).2).
Proof. intros Hs. simpl. rewrite Hs. by destruct (run step n g1) as [[??]?]. Qed.

Lemma drain_tau fuel g ev g1 :
  step g = (ev, Tau, g1) →
  drain step (S fuel) g
  = (λ '(ev', xs, r, g2), (ev ++ ev', xs, r, g2)) <$> drain step fuel g1.
Proof.
  intros Hs. simpl. rewrite Hs.
  by destruct (drain step fuel g1) as [[[[??]?]?]|].
Qed.

Lemma drain_mono fuel fuel' g r :
  drain step fuel g = Some r → (fuel ≤ fuel')%nat → drain step fuel' g = Some r.
Proof.
  revert fuel' g r. induction fuel as [|fuel IH]; intros fuel' g r H Hle; [done|].
  destruct fuel' as [|fuel']; [lia|]. simpl in *.
  destruct (step g) as [[ev sig] g1]. destruct sig; try done.
  - destruct (drain step fuel g1) as [[[[ev' xs] r'] g2]|] eqn:E; [|done].
    by rewrite (IH fuel' _ _ E); [|lia].
  - destruct (drain step fuel g1) as [[[[ev' xs] r'] g2]|] eqn:E; [|done].
    by rewrite (IH fuel' _ _ E); [|lia].
Qed.

Lemma next_mono fuel fuel' g r :
  next step fuel g = Some r → (fuel ≤ fuel')%nat → next step fuel' g = Some r.
Proof.
  revert fuel' g r. induction fuel as [|fuel IH]; intros fuel' g r H Hle; [done|].
  destruct fuel' as [|fuel']; [lia|]. simpl in *.
  destruct (step g) as [[ev sig] g1]. destruct sig; try done.
  destruct (next step fuel g1) as [[[ev' r'] g2]|] eqn:E; [|done].
  by rewrite (IH fuel' _ _ E); [|lia].
Qed.

Lemma finishes_intro fuel g tr xs r gf :
  drain step fuel g = Some (tr, xs, r, gf) → finishes step g tr xs r gf.
Proof. intros H. exists fuel. intros fuel' Hle. by eapply drain_mono. Qed.

Lemma finishes_drain fuel g tr xs r gf res :
  finishes step g tr xs r gf → drain step fuel g = Some res →
  res = (tr, xs, r, gf).
Proof.
  intros [n Hn] H.
  pose proof (Hn (n `max` fuel)%nat ltac:(lia)) as H1.
  pose proof (drain_mono _ (n `max` fuel)%nat _ _ H ltac:(lia)) as H2.
  congruence.
Qed.

Lemma finishes_yield g ev x g1 tr xs r gf :
  step g = (ev, Yield x, g1) → finishes step g1 tr xs r gf →
  finishes step g (ev ++ tr) (x :: xs) r gf.
Proof.
  intros Hs [n Hn]. exists (S n). intros [|fuel] Hle; [lia|].
  simpl. rewrite Hs, (Hn fuel); [done|lia].
Qed.

Lemma finishes_tau g ev g1 tr xs r gf :
  step g = (ev, Tau, g1) → finishes step g1 tr xs r gf →
  finishes step g (ev ++ tr) xs r gf.
Proof.
  intros Hs [n Hn]. exists (S n). intros [|fuel] Hle; [lia|].
  simpl. rewrite Hs, (Hn fuel); [done|lia].
Qed.

Lemma finishes_return g ev g1 :
  step g = (ev, Return, g1) → finishes step g ev [] None g1.
Proof.
  intros Hs. exists 1%nat. intros [|fuel] Hle; [lia|]. simpl. by rewrite Hs.
Qed.

Lemma finishes_raise g ev e g1 :
  step g = (ev, Raise e, g1) → finishes step g ev [] (Some e) g1.
Proof.
  intros Hs. exists 1%nat. intros [|fuel] Hle; [lia|]. simpl. by rewrite Hs.
Qed.

Lemma advances_finishes g tr xs g1 tr' xs' r gf :
  advances step g tr xs g1 → finishes step g1 tr' xs' r gf →
  finishes step g (tr ++ tr') (xs ++ xs') r gf.
Proof.
  induction 1 as [g|g ev x g1 ev' xs g2 Hs _ IH|g ev g1 ev' xs g2 Hs _ IH];
    intros Hf; [done| |].
  - rewrite <-(assoc_L (++)). simpl. eapply finishes_yield; eauto.
  - rewrite <-(assoc_L (++)). eapply finishes_tau; eauto.
Qed.

Lemma advances_trans g tr xs g1 tr' xs' g2 :
  advances step g tr xs g1 → advances step g1 tr' xs' g2 →
  advances step g (tr ++ tr') (xs ++ xs') g2.
Proof.
  induction 1 as [g|g ev x g1 ev' xs g3 Hs _ IH|g ev g1 ev' xs g3 Hs _ IH];
    intros Hf; [done| |].
  - rewrite <-(assoc_L (++)). simpl. eapply advances_yield; eauto.
  - rewrite <-(assoc_L (++)). eapply advances_tau; eauto.
Qed.

Lemma advances_tau1 g ev g1 :
  step g = (ev, Tau, g1) → advances step g ev [] g1.
Proof.
  intros Hs. rewrite <-(right_id_L [] (++) ev).
  eapply advances_tau; [done|constructor].
Qed.

(** [list(gen)] is the element-by-element consumption followed by the
    [next] that ends the stream. *)
Lemma drain_pulls fuel g tr xs r gf :
  drain step fuel g = Some (tr, xs, r, gf) →
  ∃ ev1 g1 ev2,
    pulls step g ev1 xs g1
    ∧ next step fuel g1
      = Some (ev2, match r with None => StopIteration | Some e => Raised e end, gf)
    ∧ tr = ev1 ++ ev2.
Proof.
  revert g tr xs. induction fuel as [|fuel IH]; intros g tr xs H; [done|].
  simpl in H. destruct (step g) as [[ev sig] g1] eqn:Hs. destruct sig.
  - destruct (drain step fuel g1) as [[[[ev' xs'] r'] g2]|] eqn:E; [|done].
    simplify_eq. destruct (IH _ _ _ E) as (ev1 & g3 & ev2 & Hp & Hn & ->).
    exists (ev ++ ev1), g3, ev2. split_and!.
    + eapply pulls_cons; [|done]. instantiate (1 := 1%nat). simpl. by rewrite Hs.
    + eapply next_mono; [done|lia].
    + by rewrite (assoc_L (++)).
  - destruct (drain step fuel g1) as [[[[ev' xs'] r'] g2]|] eqn:E; [|done].
    simplify_eq. destruct (IH _ _ _ E) as (ev1 & g3 & ev2 & Hp & Hn & ->).
    inversion Hp as [|? fuel1 eva x' g4 evb xs1 ? Hn1 Hp1]; subst.
    + exists [], g, (ev ++ ev2). split_and!; [constructor| |done].
      simpl. by rewrite Hs, Hn.
    + exists (ev ++ eva ++ evb), g3, ev2. split_and!.
      * rewrite (assoc_L (++)). eapply pulls_cons; [|done].
        instantiate (1 := S fuel1). simpl. by rewrite Hs, Hn1.
      * eapply next_mono; [done|lia].
      * by rewrite !(assoc_L (++)).
  - simplify_eq. exists [], g, tr. split_and!; [constructor| |done].
    simpl. by rewrite Hs.
  - simplify_eq. exists [], g, tr. split_and!; [constructor| |done].
    simpl. by rewrite Hs.
Qed.
End Generator_facts.

(** ** The page loop of [_yield_all] *)

Section Page_loop.
Context {Item Request : Type}.
Variable execute : Request → Exn + Response Item.
Variable self : Wrapper Item Request.
Variable lst : Kwargs → Request.
Variable lnext : Request → Response Item → option Request.
Hypothesis Hlist : list_ (_resource self) = Callable lst.
Hypothesis Hnext : list_next (_resource self) = Callable lnext.

Local Abbreviation step_page := (step_page execute self).

Lemma advances_items pb req res rest :
  advances step_page (PFor pb req res rest) [] rest (PFor pb req res []).
Proof.
  induction rest as [|x rest IH]; [constructor|].
  exact (advances_yield step_page (PFor pb req res (x :: rest)) [] x
           (PFor pb req res rest) [] rest _ eq_refl IH).
Qed.

Lemma advances_page pb req res :
  execute req = inr res →
  advances step_page (PWhile pb (Some req))
    (page_events lnext pb (req, res)) (items res) (PWhile pb (lnext req res)).
Proof.
  intros He. unfold page_events. simpl.
  pose proof (advances_trans step_page _ _ _ _ _ _ _
    (advances_tau1 step_page (PWhile pb (Some req)) _ _ ltac:(simpl; by rewrite He))
    (advances_trans step_page _ _ _ _ _ _ _ (advances_items pb req res (items res))
       (advances_tau1 step_page (PFor pb req res []) _ _
          ltac:(simpl; by rewrite Hnext)))) as H.
  simpl in H. by rewrite (right_id_L [] (++)) in H.
Qed.

Lemma advances_pages pb o pages o' :
  PageSeq execute lnext o pages o' →
  advances step_page (PWhile pb o)
    (pages_trace lnext pb pages) (pages_items pages) (PWhile pb o').
Proof.
  induction 1 as [o|req res pages o He _ IH]; [constructor|].
  unfold pages_trace, pages_items. rewrite !bind_cons.
  eapply advances_trans; [by apply advances_page|apply IH].
Qed.

Lemma advances_start pb desc kwargs :
  advances step_page (_yield_all pb desc kwargs)
    [EvList (<["maxResults" := VInt 50]> kwargs)] []
    (PWhile pb (Some (lst (<["maxResults" := VInt 50]> kwargs)))).
Proof. apply advances_tau1. simpl. by rewrite Hlist. Qed.

(** The stream up to the point where the request [o'] is about to be
    executed. *)
Lemma advances_upto pb desc kwargs pages o' :
  PageSeq execute lnext (Some (lst (<["maxResults" := VInt 50]> kwargs))) pages o' →
  advances step_page (_yield_all pb desc kwargs)
    (EvList (<["maxResults" := VInt 50]> kwargs) :: pages_trace lnext pb pages)
    (pages_items pages) (PWhile pb o').
Proof.
  intros Hp.
  apply (advances_trans step_page _ _ _ _ _ _ _ (advances_start pb desc kwargs)
           (advances_pages pb _ _ _ Hp)).
Qed.

Lemma finishes_pages pb desc kwargs pages :
  PageSeq execute lnext (Some (lst (<["maxResults" := VInt 50]> kwargs))) pages None →
  finishes step_page (_yield_all pb desc kwargs)
    (EvList (<["maxResults" := VInt 50]> kwargs) :: pages_trace lnext pb pages)
    (pages_items pages) None PDone.
Proof.
  intros Hp.
  pose proof (advances_finishes _ _ _ _ _ _ _ _ _
    (advances_upto pb desc kwargs pages None Hp)
    (finishes_return step_page (PWhile pb None) [] PDone eq_refl)) as H.
  by rewrite !(right_id_L [] (++)) in H.
Qed.

Lemma executed_pages_trace pb (pages : list (Request * Response Item)) :
  executed (pages_trace lnext pb pages) = pages.*1.
Proof.
  induction pages as [|[req res] pages IH]; [done|].
  unfold pages_trace in *. rewrite bind_cons. unfold executed in *.
  rewrite omap_app, IH. unfold page_events. simpl. by destruct pb.
Qed.

Lemma PageSeq_last pb o pages :
  PageSeq execute lnext o pages None → pages ≠ [] →
  ∃ req res, last pages = Some (req, res) ∧ lnext req res = None
    ∧ last (pages_trace lnext pb pages) = Some (EvListNext req res None).
Proof.
  remember None as o' eqn:Ho.
  induction 1 as [o|req res pages o He Hp IH]; intros Hne; [done|].
  destruct pages as [|p pages].
  - inversion Hp; subst. exists req, res. split_and!; [done..|].
    unfold pages_trace. rewrite bind_cons. simpl.
    rewrite (right_id_L [] (++)). unfold page_events. simpl.
    destruct pb; simpl; congruence.
  - destruct (IH Ho ltac:(done)) as (req' & res' & Hl & Hn & Ht).
    exists req', res'. split_and!; [by rewrite last_cons, Hl|done|].
    unfold pages_trace in *. rewrite bind_cons, last_app, Ht. done.
Qed.
End Page_loop.

(** ** Delegation from [yield_all] to [_yield_all] *)

Section Delegation.
Context {Item Request : Type}.
Variable execute : Request → Exn + Response Item.
Variable self : Wrapper Item Request.

Local Abbreviation step_page := (step_page execute self).
Local Abbreviation step_all := (step_all execute self).

Lemma drain_plain fuel g tr xs r gf :
  drain step_page fuel g = Some (tr, xs, r, gf) →
  drain step_all fuel (APlain g) = Some (tr, xs, r, ADone).
Proof.
  revert g tr xs. induction fuel as [|fuel IH]; intros g tr xs H; [done|].
  simpl in *. destruct (step_page g) as [[ev sig] g1]. destruct sig.
  - destruct (drain step_page fuel g1) as [[[[ev' xs'] r'] g2]|] eqn:E; [|done].
    simplify_eq. by rewrite (IH _ _ _ E).
  - destruct (drain step_page fuel g1) as [[[[ev' xs'] r'] g2]|] eqn:E; [|done].
    simplify_eq. by rewrite (IH _ _ _ E).
  - by simplify_eq.
  - by simplify_eq.
Qed.

Lemma finishes_plain g tr xs r gf :
  finishes step_page g tr xs r gf → finishes step_all (APlain g) tr xs r ADone.
Proof. intros [n Hn]. exists n. intros fuel Hle. eapply drain_plain. by apply Hn. Qed.

Lemma drain_inner_ok fuel pb kw ids total pending g tr xs gf :
  drain step_page fuel g = Some (tr, xs, None, gf) →
  advances step_all (AInner pb kw ids total pending g)
    (tr ++ batch_update pb total) xs (AFor pb kw ids total pending).
Proof.
  revert g tr xs. induction fuel as [|fuel IH]; intros g tr xs H; [done|].
  simpl in H. destruct (step_page g) as [[ev sig] g1] eqn:Hs. destruct sig.
  - destruct (drain step_page fuel g1) as [[[[ev' xs'] r'] g2]|] eqn:E; [|done].
    simplify_eq. rewrite <-(assoc_L (++)).
    eapply advances_yield; [simpl; by rewrite Hs|by apply IH].
  - destruct (drain step_page fuel g1) as [[[[ev' xs'] r'] g2]|] eqn:E; [|done].
    simplify_eq. rewrite <-(assoc_L (++)).
    eapply advances_tau; [simpl; by rewrite Hs|by apply IH].
  - simplify_eq. apply advances_tau1. simpl. by rewrite Hs.
  - by simplify_eq.
Qed.

(** The loop over the batches, when the stream of every batch still
    to come ends normally. *)
Lemma finishes_batches pb kw ids total pending
    (rs : list (list (Event Item Request) * list Item)) :
  Forall2 (λ i r, ∃ gf,
    finishes step_page
      (_yield_all false (VStr "") (<["id" := py_slice ids i (i + 50)]> kw))
      r.1 r.2 None gf) pending rs →
  finishes step_all (AFor pb kw ids total pending)
    (rs ≫= λ r, r.1 ++ batch_update pb total) (rs ≫= snd) None ADone.
Proof.
  induction 1 as [|i [tr xs] pending rs [gf [n Hn]] _ IH].
  - by apply finishes_return.
  - rewrite !bind_cons. simpl in *.
    change (tr ++ batch_update pb total) with ([] ++ (tr ++ batch_update pb total)).
    rewrite <-(assoc_L (++) []).
    eapply finishes_tau; [done|].
    eapply advances_finishes; [|apply IH].
    eapply drain_inner_ok. by apply (Hn n).
Qed.

Lemma step_all_unsplit pb desc kwargs :
  (kwargs !! "id" = None
   ∨ ∃ v n, kwargs !! "id" = Some v ∧ py_len v = Some n ∧ (n ≤ 50)%nat) →
  step_all (yield_all pb desc kwargs)
  = ([], Tau, APlain (_yield_all pb desc kwargs)).
Proof.
  intros [H|(v & n & H & Hl & Hn)]; simpl; rewrite H; [done|].
  rewrite Hl. by rewrite (proj2 (Nat.ltb_ge 50 n)).
Qed.

Lemma finishes_unsplit pb desc kwargs tr xs r gf :
  (kwargs !! "id" = None
   ∨ ∃ v n, kwargs !! "id" = Some v ∧ py_len v = Some n ∧ (n ≤ 50)%nat) →
  finishes step_page (_yield_all pb desc kwargs) tr xs r gf →
  finishes step_all (yield_all pb desc kwargs) tr xs r ADone.
Proof.
  intros Hk Hf. change tr with ([] ++ tr).
  eapply finishes_tau; [by apply step_all_unsplit|by eapply finishes_plain].
Qed.
End Delegation.

(** ** Ranges and batches *)

Section Batches.
Context {A : Type}.
Implicit Types ids : list A.

Lemma range_from_50 fuel i stop :
  ((stop + 49 - i) / 50 ≤ fuel)%nat →
  range_from fuel i stop 50
  = (λ j, i + 50 * j)%nat <$> seq 0 ((stop + 49 - i) / 50).
Proof.
  revert i. induction fuel as [|fuel IH]; intros i Hle.
  - by replace ((stop + 49 - i) / 50)%nat with 0%nat by lia.
  - cbn [range_from]. destruct (Nat.ltb_spec i stop) as [Hlt|Hge].
    + assert ((stop + 49 - i) / 50 = S ((stop + 49 - (i + 50)) / 50))%nat as Hc.
      { replace (stop + 49 - i)%nat with (1 * 50 + (stop + 49 - (i + 50)))%nat by lia.
        rewrite Nat.div_add_l by lia. lia. }
      rewrite Hc in *. rewrite IH by lia.
      rewrite <-cons_seq, fmap_cons, <-fmap_S_seq, <-list_fmap_compose.
      f_equal; [lia|]. apply list_fmap_ext. intros _ j _. cbn [compose]. lia.
    + replace ((stop + 49 - i) / 50)%nat with 0%nat; [done|].
      symmetry. apply Nat.div_small. lia.
Qed.

Lemma py_range_50 n :
  py_range 0 n 50 = (λ j, 50 * j)%nat <$> seq 0 ((n + 49) / 50).
Proof.
  unfold py_range. rewrite range_from_50.
  - by rewrite Nat.sub_0_r.
  - rewrite Nat.sub_0_r. destruct n; [done|].
    apply Nat.Div0.div_le_upper_bound. lia.
Qed.

Lemma id_batches_eq ids :
  id_batches ids
  = (λ j, take 50 (drop (50 * j) ids)) <$> seq 0 ((length ids + 49) / 50).
Proof.
  unfold id_batches. rewrite py_range_50, <-list_fmap_compose.
  apply list_fmap_ext. intros _ j _. cbn [compose]. unfold slice. f_equal. lia.
Qed.

Lemma length_id_batches ids :
  length (id_batches ids) = ((length ids + 49) / 50)%nat.
Proof. by rewrite id_batches_eq, length_fmap, length_seq. Qed.

Lemma concat_chunks k ids :
  (length ids ≤ 50 * k)%nat →
  concat ((λ j, take 50 (drop (50 * j) ids)) <$> seq 0 k) = ids.
Proof.
  revert ids. induction k as [|k IH]; intros ids Hle.
  - destruct ids; [done|simpl in Hle; lia].
  - rewrite <-cons_seq, fmap_cons, <-fmap_S_seq, <-list_fmap_compose.
    rewrite (list_fmap_ext _ (λ j, take 50 (drop (50 * j) (drop 50 ids)))).
    + rewrite concat_cons, IH; [apply take_drop|]. rewrite length_drop. lia.
    + intros _ j _. cbn [compose]. rewrite drop_drop. do 2 f_equal. lia.
Qed.

Lemma concat_id_batches ids : concat (id_batches ids) = ids.
Proof.
  rewrite id_batches_eq. apply concat_chunks.
  pose proof (Nat.div_mod (length ids + 49) 50 ltac:(lia)).
  pose proof (Nat.mod_upper_bound (length ids + 49) 50 ltac:(lia)). lia.
Qed.

Lemma lookup_id_batches ids j b :
  id_batches ids !! j = Some b →
  b = take 50 (drop (50 * j) ids)
  ∧ (0 < length b ≤ 50)%nat
  ∧ (S j < length (id_batches ids) → length b = 50%nat).
Proof.
  rewrite length_id_batches, id_batches_eq, list_lookup_fmap.
  intros H. apply fmap_Some in H as (j' & Hj & ->).
  apply lookup_seq in Hj as [-> Hj]. cbn [Nat.add].
  pose proof (Nat.div_mod (length ids + 49) 50 ltac:(lia)).
  pose proof (Nat.mod_upper_bound (length ids + 49) 50 ltac:(lia)).
  split; [done|]. rewrite length_take, length_drop. lia.
Qed.
End Batches.

(** ** The claims on the page loop *)

Section Claims_page_loop.
Context {Item Request : Type}.
Implicit Types (execute : Request → Exn + Response Item)
  (self : Wrapper Item Request) (lst : Kwargs → Request)
  (lnext : Request → Response Item → option Request)
  (pages : list (Request * Response Item)).

(** C1 (completeness). When the endpoint answers the pages [pages]
    and only the last of them has no continuation ([list_next] gives
    [None]), and the identifiers need no splitting, the streams of
    [_yield_all] and of [yield_all] deliver exactly the items of these
    pages, concatenated in page order, and end normally. The trace is
    the [list] call followed by the events of each page in turn: the
    requests executed are those of the pages and no other, and the
    last event is the [list_next] that returned [None]. *)
Theorem yield_all_complete execute self lst lnext pb desc kwargs pages :
  list_ (_resource self) = Callable lst →
  list_next (_resource self) = Callable lnext →
  (kwargs !! "id" = None
   ∨ ∃ v n, kwargs !! "id" = Some v ∧ py_len v = Some n ∧ (n ≤ 50)%nat) →
  PageSeq execute lnext
    (Some (lst (<["maxResults" := VInt 50]> kwargs))) pages None →
  let tr := EvList (<["maxResults" := VInt 50]> kwargs)
              :: pages_trace lnext pb pages in
  finishes (step_page execute self) (_yield_all pb desc kwargs)
    tr (pages_items pages) None PDone
  ∧ finishes (step_all execute self) (yield_all pb desc kwargs)
      tr (pages_items pages) None ADone
  ∧ executed tr = pages.*1
  ∧ ∃ req res, last pages = Some (req, res) ∧ lnext req res = None
               ∧ last tr = Some (EvListNext req res None).
Proof.
  intros Hlist Hnext Hk Hp tr.
  assert (finishes (step_page execute self) (_yield_all pb desc kwargs)
            tr (pages_items pages) None PDone) as Hf.
  { by eapply finishes_pages. }
  split_and!; [done|by eapply finishes_unsplit| |].
  - unfold tr, executed. simpl. apply executed_pages_trace.
  - assert (pages ≠ []) as Hne by (intros ->; inversion Hp).
    destruct (PageSeq_last execute lnext pb _ _ Hp Hne) as (req & res & Hl & Hn & Ht).
    exists req, res. split_and!; [done..|].
    unfold tr. destruct (pages_trace lnext pb pages); [done|by rewrite last_cons, Ht].
Qed.

(** C3 (404 is empty). When the first [execute] raises [HttpError]
    with status code 404, the stream of [_yield_all] delivers no item
    and ends normally: draining it gives the empty list and no
    exception, and the very first [next] is a [StopIteration]. *)
Theorem not_found_first_is_empty execute self lst pb desc kwargs :
  list_ (_resource self) = Callable lst →
  execute (lst (<["maxResults" := VInt 50]> kwargs)) = inl (HttpError 404) →
  let req := lst (<["maxResults" := VInt 50]> kwargs) in
  let tr := [EvList (<["maxResults" := VInt 50]> kwargs);
             EvExecute req (inl (HttpError 404))] in
  finishes (step_page execute self) (_yield_all pb desc kwargs) tr [] None PDone
  ∧ ∀ fuel, (2 ≤ fuel)%nat →
      next (step_page execute self) fuel (_yield_all pb desc kwargs)
      = Some (tr, StopIteration, PDone).
Proof.
  intros Hlist He req tr. split.
  - exists 2%nat. intros [|[|fuel]] Hle; [lia..|].
    simpl. rewrite Hlist. simpl. by rewrite He.
  - intros [|[|fuel]] Hle; [lia..|].
    simpl. rewrite Hlist. simpl. by rewrite He.
Qed.

(** C10 (404 at any position). When the pages [pages] were answered
    and the request that follows them raises [HttpError] with status
    code 404, the stream of [_yield_all] delivers exactly the items of
    these pages and ends normally, without an exception. *)
Theorem not_found_later_ends_normally
    execute self lst lnext pb desc kwargs pages req :
  list_ (_resource self) = Callable lst →
  list_next (_resource self) = Callable lnext →
  PageSeq execute lnext
    (Some (lst (<["maxResults" := VInt 50]> kwargs))) pages (Some req) →
  execute req = inl (HttpError 404) →
  finishes (step_page execute self) (_yield_all pb desc kwargs)
    (EvList (<["maxResults" := VInt 50]> kwargs)
       :: pages_trace lnext pb pages ++ [EvExecute req (inl (HttpError 404))])
    (pages_items pages) None PDone.
Proof.
  intros Hlist Hnext Hp He.
  pose proof (advances_finishes _ _ _ _ _ _ _ _ _
    (advances_upto execute self lst lnext Hlist Hnext pb desc kwargs pages _ Hp)
    (finishes_return (step_page execute self) (PWhile pb (Some req))
       [EvExecute req (inl (HttpError 404))] PDone
       ltac:(simpl; by rewrite He))) as H.
  by rewrite (right_id_L [] (++)) in H.
Qed.

(** C4 (other errors propagate). When the pages [pages] were answered
    and the request that follows them raises [HttpError] with a status
    code other than 404, the consumer receives exactly the items of
    these pages and then that exception. The error is logged, the
    failed request is the last one executed, and the generator is
    finished: whatever is asked of it afterwards, it makes no call and
    yields nothing. *)
Theorem other_error_propagates
    execute self lst lnext pb desc kwargs pages req status_code :
  list_ (_resource self) = Callable lst →
  list_next (_resource self) = Callable lnext →
  PageSeq execute lnext
    (Some (lst (<["maxResults" := VInt 50]> kwargs))) pages (Some req) →
  execute req = inl (HttpError status_code) →
  status_code ≠ 404%Z →
  let e := HttpError status_code in
  let tr := EvList (<["maxResults" := VInt 50]> kwargs)
              :: pages_trace lnext pb pages
              ++ [EvExecute req (inl e); EvLogError e] in
  finishes (step_page execute self) (_yield_all pb desc kwargs)
    tr (pages_items pages) (Some e) PDone
  ∧ executed tr = pages.*1 ++ [req]
  ∧ ∀ n, run (step_page execute self) n PDone = ([], [], PDone).
Proof.
  intros Hlist Hnext Hp He Hc e tr. split_and!.
  - pose proof (advances_finishes _ _ _ _ _ _ _ _ _
      (advances_upto execute self lst lnext Hlist Hnext pb desc kwargs pages _ Hp)
      (finishes_raise (step_page execute self) (PWhile pb (Some req))
         [EvExecute req (inl e); EvLogError e] e PDone
         ltac:(simpl; rewrite He; simpl;
               by rewrite (proj2 (Z.eqb_neq status_code 404) Hc)))) as H.
    by rewrite (right_id_L [] (++)) in H.
  - unfold tr, executed. simpl. rewrite omap_app.
    pose proof (executed_pages_trace lnext pb pages) as H.
    unfold executed in H. by rewrite H.
  - induction n as [|n IH]; [done|]. simpl. by rewrite IH.
Qed.
End Claims_page_loop.

(** ** The constructor *)

(** C8 (fail fast). [Wrapper(resource)] succeeds, keeping the resource,
    exactly when both [list] and [list_next] are callable members of
    it; when either is missing or not callable the constructor raises
    [ValueError]. The constructor is a function of the resource alone:
    it makes no call on it and creates no generator. *)
Theorem init_checks_capabilities {Item Request} (resource : Resource Item Request) :
  __init__ resource
  = match list_ resource, list_next resource with
    | Callable _, Callable _ => inr {| _resource := resource |}
    | _, _ =>
        inl (ValueError "Resource must implement the `list` and`list_next` methods")
    end.
Proof.
  unfold __init__. by destruct (list_ resource), (list_next resource).
Qed.

(** ** [list_all] *)

Section Claims_list_all.
Context {Item Request : Type}.
Implicit Types (execute : Request → Exn + Response Item)
  (self : Wrapper Item Request).

(** When [list_all] returns, every other invocation with the same
    arguments that returns gives the same trace and the same result,
    and that result is what pulling [yield_all] one [next] at a time
    gives, up to the [next] that ends the stream. *)
Lemma list_all_same_result execute self kwargs fuel r :
  list_all execute self fuel kwargs = Some r →
  (∀ fuel' r', list_all execute self fuel' kwargs = Some r' → r' = r)
  ∧ ∃ ev1 xs g1 ev2 gf,
      pulls (step_all execute self) (yield_all_kw kwargs) ev1 xs g1
      ∧ r.1 = ev1 ++ ev2
      ∧ ((next (step_all execute self) fuel g1 = Some (ev2, StopIteration, gf)
          ∧ r.2 = inr xs)
         ∨ ∃ e, next (step_all execute self) fuel g1 = Some (ev2, Raised e, gf)
                ∧ r.2 = inl e).
Proof.
  unfold list_all. intros H.
  destruct (drain _ fuel _) as [[[[tr xs] o] gf]|] eqn:Hd; [|done]. split.
  - intros fuel' r' H'.
    destruct (drain _ fuel' _) as [[[[tr' xs'] o'] gf']|] eqn:Hd'; [|done].
    pose proof (finishes_drain _ _ _ _ _ _ _ _ (finishes_intro _ _ _ _ _ _ _ Hd) Hd').
    simplify_eq. destruct o; by simplify_eq.
  - destruct (drain_pulls _ _ _ _ _ _ _ Hd) as (ev1 & g1 & ev2 & Hp & Hn & ->).
    exists ev1, xs, g1, ev2, gf. destruct o as [e|]; simplify_eq; simpl.
    + split_and!; [done..|]. right. by exists e.
    + split_and!; [done..|]. by left.
Qed.
End Claims_list_all.

(** ** Batching *)

Section Claims_batching.
Context {Item Request : Type}.
Implicit Types (execute : Request → Exn + Response Item)
  (self : Wrapper Item Request).

(** C2 (batching). For a list of identifiers [ids] passed as [id]:
    with at most 50 of them, [yield_all] hands its arguments
    unchanged to one [_yield_all], whose stream is its stream; with
    more, the batches
    [id_batches ids] that the loop slices off number
    [ceil(len(ids) / 50)], batch [j] is the 50 identifiers from
    position [50 * j] on (fewer, but at least one, for the last
    batch only), their concatenation is [ids], and the stream of
    [yield_all] is the streams of [_yield_all] for these batches one
    after the other in batch order: when the stream of each batch
    ends normally with the items [r.2], the whole stream ends
    normally with the concatenation of these items. *)
Theorem yield_all_batching execute self pb desc kwargs (ids : list string) :
  kwargs !! "id" = Some (VList ids) →
  ((length ids ≤ 50)%nat →
     step_all execute self (yield_all pb desc kwargs)
     = ([], Tau, APlain (_yield_all pb desc kwargs))
     ∧ ∀ tr xs r gf,
         finishes (step_page execute self) (_yield_all pb desc kwargs)
           tr xs r gf →
         finishes (step_all execute self) (yield_all pb desc kwargs)
           tr xs r ADone)
  ∧ ((50 < length ids)%nat →
       length (id_batches ids) = ((length ids + 49) / 50)%nat
       ∧ concat (id_batches ids) = ids
       ∧ (∀ j b, id_batches ids !! j = Some b →
            b = take 50 (drop (50 * j) ids)
            ∧ (0 < length b ≤ 50)%nat
            ∧ (S j < length (id_batches ids) → length b = 50%nat))
       ∧ ∀ rs : list (list (Event Item Request) * list Item),
           Forall2 (λ b r, ∃ gf,
             finishes (step_page execute self)
               (_yield_all false (VStr "")
                  (<["id" := VList b]> (delete "id" kwargs)))
               r.1 r.2 None gf) (id_batches ids) rs →
           finishes (step_all execute self) (yield_all pb desc kwargs)
             (rs ≫= λ r,
                r.1 ++ batch_update pb (Z.of_nat (length (id_batches ids))))
             (rs ≫= snd) None ADone).
Proof.
  intros Hid. split.
  - intros Hle.
    assert (kwargs !! "id" = None
            ∨ ∃ v n, kwargs !! "id" = Some v ∧ py_len v = Some n ∧ (n ≤ 50)%nat)
      as Hk by (right; by exists (VList ids), (length ids)).
    split; [by apply step_all_unsplit|].
    intros tr xs r gf. by apply finishes_unsplit.
  - intros Hlt. split_and!.
    + apply length_id_batches.
    + apply concat_id_batches.
    + apply lookup_id_batches.
    + intros rs Hrs.
      set (total := Z.of_nat (length (id_batches ids))).
      change (rs ≫= λ r, r.1 ++ batch_update pb total)
        with ([] ++ (rs ≫= λ r, r.1 ++ batch_update pb total)).
      eapply finishes_tau.
      * simpl. rewrite Hid. simpl.
        rewrite (proj2 (Nat.ltb_lt 50 (length ids)) Hlt). done.
      * unfold id_batches in Hrs. apply Forall2_fmap_l in Hrs.
        unfold total, id_batches. rewrite length_fmap.
        by apply finishes_batches.
Qed.
End Claims_batching.

(** ** What the [list] calls are given *)

Section Claims_frame.
Context {Item Request : Type}.
Variable execute : Request → Exn + Response Item.
Variable self : Wrapper Item Request.
Implicit Types tr ev : list (Event Item Request).

Lemma listed_app tr ev : listed (tr ++ ev) = listed tr ++ listed ev.
Proof. apply omap_app. Qed.

Lemma listed_batch_update pb total :
  listed (batch_update pb total : list (Event Item Request)) = [].
Proof. by destruct pb. Qed.

Lemma step_page_listed kwargs g ev sig g' :
  page_from kwargs g → step_page execute self g = (ev, sig, g') →
  Forall (list_call_ok kwargs) (listed ev) ∧ page_from kwargs g'.
Proof.
  intros Hg Hs. destruct g as [pb desc kw|pb [req|]|pb req res [|x rest]|];
    simpl in Hs.
  - destruct (call _); simplify_eq; simpl; [done|].
    split; [|done]. by constructor.
  - destruct (execute req) as [e|res].
    + unfold handle in Hs. destruct e; try case_match; by simplify_eq.
    + simplify_eq. by destruct pb.
  - by simplify_eq.
  - destruct (call _); by simplify_eq.
  - by simplify_eq.
  - by simplify_eq.
Qed.

Lemma list_call_ok_plain kwargs :
  list_call_ok kwargs (<["maxResults" := VInt 50]> kwargs).
Proof.
  split_and!.
  - apply lookup_insert_eq.
  - intros k _ Hk. by rewrite lookup_insert_ne.
  - left. by rewrite lookup_insert_ne.
Qed.

Lemma list_call_ok_batch kwargs ids len i :
  kwargs !! "id" = Some ids → py_len ids = Some len → (50 < len)%nat →
  i ∈ py_range 0 len 50 →
  list_call_ok kwargs
    (<["maxResults" := VInt 50]>
       (<["id" := py_slice ids i (i + 50)]> (delete "id" kwargs))).
Proof.
  intros Hid Hlen Hlt Hi. split_and!.
  - apply lookup_insert_eq.
  - intros k Hk1 Hk2. by rewrite !lookup_insert_ne, lookup_delete_ne.
  - right. exists ids, len, i. split_and!; [done..|].
    by rewrite lookup_insert_ne, lookup_insert_eq.
Qed.

Lemma step_all_listed kwargs g ev sig g' :
  all_from kwargs g → step_all execute self g = (ev, sig, g') →
  Forall (list_call_ok kwargs) (listed ev) ∧ all_from kwargs g'.
Proof.
  intros Hg Hs.
  destruct g as [pb desc kw|pb kw ids total [|i pending]
                |pb kw ids total pending inner|inner|]; simpl in Hs, Hg.
  - subst kw. destruct (kwargs !! "id") as [v|] eqn:Hid.
    + destruct (py_len v) as [n|] eqn:Hlen; [|by simplify_eq].
      destruct (Nat.ltb_spec 50 n); simplify_eq; simpl.
      * split; [done|]. split_and!; [done..|]. by exists n.
      * split; [done|]. apply list_call_ok_plain.
    + simplify_eq. simpl. split; [done|]. apply list_call_ok_plain.
  - by simplify_eq.
  - simplify_eq. simpl. destruct Hg as (Hid & -> & len & Hlen & Hlt & Hsub).
    split; [done|]. split.
    + split_and!; [done..|]. exists len. split_and!; [done..|]. set_solver.
    + eapply list_call_ok_batch; [done..|]. set_solver.
  - destruct Hg as [Hb Hi].
    destruct (step_page execute self inner) as [[ev' sig'] inner'] eqn:Hp.
    destruct (step_page_listed _ _ _ _ _ Hi Hp) as [Hev Hi'].
    destruct sig'; simplify_eq; simpl; try done.
    by rewrite listed_app, listed_batch_update, (right_id_L [] (++)).
  - destruct (step_page execute self inner) as [[ev' sig'] inner'] eqn:Hp.
    destruct (step_page_listed _ _ _ _ _ Hg Hp) as [Hev Hi'].
    destruct sig'; by simplify_eq.
  - by simplify_eq.
Qed.

Lemma run_listed kwargs n g :
  all_from kwargs g →
  Forall (list_call_ok kwargs) (listed (run (step_all execute self) n g).1.1).
Proof.
  revert g. induction n as [|n IH]; intros g Hg; [by constructor|].
  simpl. destruct (step_all execute self g) as [[ev sig] g1] eqn:Hs.
  destruct (step_all_listed _ _ _ _ _ Hg Hs) as [Hev Hg1].
  specialize (IH g1 Hg1).
  destruct (run (step_all execute self) n g1) as [[ev' xs] g2]. simpl in *.
  rewrite listed_app. by apply Forall_app.
Qed.

End Claims_frame.

(** C5 as stated fails: the caller passes [part] alone and the [list]
    call is given [maxResults] as well, a field the caller never
    supplied and that is not [id]. *)
Lemma list_call_adds_maxResults :
  let tr := (run (step_all (script_execute three_pages)
                    (script_wrapper three_pages))
               2 (yield_all false (VStr "") part_snippet)).1.1 in
  ¬ (∀ kw, kw ∈ listed tr → ∀ k, k ≠ "id" → kw !! k = part_snippet !! k).
Proof.
  intros tr H.
  specialize (H (<["maxResults" := VInt 50]> part_snippet) ltac:(by left)
                "maxResults" ltac:(done)).
  by vm_compute in H.
Qed.

(** ** Progress of a split stream *)

Section Claims_progress.
Context {Item Request : Type}.
Variable execute : Request → Exn + Response Item.
Variable self : Wrapper Item Request.
Implicit Types tr ev : list (Event Item Request).

Lemma progress_app tr ev : progress (tr ++ ev) = progress tr ++ progress ev.
Proof. apply omap_app. Qed.

Lemma step_page_quiet g ev sig g' :
  quiet g → step_page execute self g = (ev, sig, g') →
  progress ev = [] ∧ quiet g'.
Proof.
  intros Hg Hs. destruct g as [pb desc kw|pb [req|]|pb req res [|x rest]|];
    simpl in Hs, Hg; subst.
  - destruct (call _); by simplify_eq.
  - destruct (execute req) as [e|res]; [|by simplify_eq].
    unfold handle in Hs. destruct e; try case_match; by simplify_eq.
  - by simplify_eq.
  - destruct (call _); by simplify_eq.
  - by simplify_eq.
  - by simplify_eq.
Qed.

Lemma step_all_batches total g ev sig g' :
  in_batches total g → step_all execute self g = (ev, sig, g') →
  in_batches total g'
  ∧ match sig with
    | Raise _ => progress ev = []
    | Return => remaining g = 0%nat ∧ progress ev = []
    | _ => (remaining g' ≤ remaining g)%nat
           ∧ progress ev
             = replicate (remaining g - remaining g') (BatchBar, total)
    end.
Proof.
  intros Hg Hs.
  destruct g as [pb desc kw|pb kw ids t [|i pending]
                |pb kw ids t pending inner|inner|]; simpl in Hs, Hg; try done.
  - by simplify_eq.
  - destruct Hg as [-> ->]. simplify_eq. simpl.
    rewrite Nat.sub_diag. split_and!; [done..|lia|done].
  - destruct Hg as (-> & -> & Hq).
    destruct (step_page execute self inner) as [[ev' sig'] inner'] eqn:Hp.
    destruct (step_page_quiet _ _ _ _ Hq Hp) as [Hev Hq'].
    destruct sig'; simplify_eq; simpl.
    + rewrite Nat.sub_diag. split_and!; [done..|lia|done].
    + rewrite Nat.sub_diag. split_and!; [done..|lia|done].
    + rewrite progress_app, Hev. split_and!; [done..|lia|].
      by replace (S (length pending) - length pending)%nat with 1%nat by lia.
    + done.
  - by simplify_eq.
Qed.

Lemma run_batches total n g :
  in_batches total g →
  Forall (λ p, p = (BatchBar, total))
    (progress (run (step_all execute self) n g).1.1).
Proof.
  revert g. induction n as [|n IH]; intros g Hg; [by constructor|].
  simpl. destruct (step_all execute self g) as [[ev sig] g1] eqn:Hs.
  destruct (step_all_batches _ _ _ _ _ Hg Hs) as [Hg1 Hev].
  specialize (IH g1 Hg1).
  destruct (run (step_all execute self) n g1) as [[ev' xs] g2]. simpl in *.
  rewrite progress_app. apply Forall_app. split; [|done].
  destruct sig; destruct_and?; rewrite ?Hev;
    repeat match goal with H : progress ev = _ |- _ => rewrite H end;
    try done; by apply Forall_replicate.
Qed.

Lemma drain_batches total fuel g tr xs gf :
  in_batches total g →
  drain (step_all execute self) fuel g = Some (tr, xs, None, gf) →
  progress tr = replicate (remaining g) (BatchBar, total).
Proof.
  revert g tr xs. induction fuel as [|fuel IH]; intros g tr xs Hg H; [done|].
  simpl in H. destruct (step_all execute self g) as [[ev sig] g1] eqn:Hs.
  destruct (step_all_batches _ _ _ _ _ Hg Hs) as [Hg1 Hev].
  destruct sig.
  - destruct (drain _ fuel g1) as [[[[ev' xs'] r'] g2]|] eqn:E; [|done].
    simplify_eq. destruct Hev as [Hle Hev].
    rewrite progress_app, Hev, (IH _ _ _ Hg1 E), <-replicate_add.
    f_equal. lia.
  - destruct (drain _ fuel g1) as [[[[ev' xs'] r'] g2]|] eqn:E; [|done].
    simplify_eq. destruct Hev as [Hle Hev].
    rewrite progress_app, Hev, (IH _ _ _ Hg1 E), <-replicate_add.
    f_equal. lia.
  - simplify_eq. destruct Hev as [-> ->]. done.
  - done.
Qed.

Lemma ceil50_of_nat n : Z.of_nat ((n + 49) / 50) = ceil50 (Z.of_nat n).
Proof. unfold ceil50. rewrite Nat2Z.inj_div, Nat2Z.inj_add. done. Qed.

(** With more than 50 identifiers and the progress bar enabled, every
    progress update is an update of the batch bar, and a stream that
    ends normally has made one for each batch. *)
Lemma split_progress_kind_and_count desc kwargs ids len :
  kwargs !! "id" = Some ids → py_len ids = Some len → (50 < len)%nat →
  (∀ n, Forall (λ p, p = (BatchBar, ceil50 (Z.of_nat len)))
          (progress (run (step_all execute self) n
                       (yield_all true desc kwargs)).1.1))
  ∧ ∀ fuel tr xs gf,
      drain (step_all execute self) fuel (yield_all true desc kwargs)
      = Some (tr, xs, None, gf) →
      progress tr
      = replicate ((len + 49) / 50) (BatchBar, ceil50 (Z.of_nat len)).
Proof.
  intros Hid Hlen Hlt.
  assert (step_all execute self (yield_all true desc kwargs)
          = ([], Tau, AFor true (delete "id" kwargs) ids
                        (ceil50 (Z.of_nat len)) (py_range 0 len 50))) as Hs.
  { simpl. rewrite Hid, Hlen, (proj2 (Nat.ltb_lt 50 len) Hlt).
    by rewrite py_range_50, length_fmap, length_seq, ceil50_of_nat. }
  split.
  - intros [|n]; [by constructor|]. rewrite (run_step _ _ _ _ _ _ Hs). simpl.
    by apply run_batches.
  - intros [|fuel] tr xs gf H; [done|]. rewrite (drain_tau _ _ _ _ _ Hs) in H.
    destruct (drain _ fuel _) as [[[[ev' xs'] r'] g2]|] eqn:E; [|done].
    cbn [fmap option_fmap option_map] in H. simplify_eq.
    change ([] ++ ev') with ev'.
    rewrite (drain_batches (ceil50 (Z.of_nat len)) fuel
               (AFor true (delete "id" kwargs) ids (ceil50 (Z.of_nat len))
                  (py_range 0 len 50)) ev' xs gf (conj eq_refl eq_refl) E).
    cbn [remaining app].
    by rewrite py_range_50, length_fmap, length_seq.
Qed.
End Claims_progress.

(** C6 as stated fails: 51 identifiers with the progress bar enabled
    are fetched as two batches of one page each; the batch bar is
    updated twice, and no page bar is updated at all. *)
Lemma split_stream_has_no_page_progress :
  ∃ tr xs,
    drain (step_all echo_execute echo_wrapper) 100
      (yield_all true (VStr "") (ids_kwargs 51))
    = Some (tr, xs, None, ADone)
    ∧ length (fetched tr) = 2%nat
    ∧ progress tr = [(BatchBar, 2%Z); (BatchBar, 2%Z)]
    ∧ ¬ ∃ total, (PageBar, total) ∈ progress tr.
Proof.
  eexists _, _. split; [vm_compute; reflexivity|].
  split_and!; [by vm_compute..|].
  intros [total H]. vm_compute in H.
  apply list_elem_of_In in H. destruct H as [H|[H|[]]]; discriminate H.
Qed.

(** ** Laziness *)

Section Claims_lazy.
Context {Item Request : Type}.
Variable execute : Request → Exn + Response Item.
Variable self : Wrapper Item Request.
Implicit Types tr ev : list (Event Item Request).

Lemma fetched_app tr ev : fetched (tr ++ ev) = fetched tr ++ fetched ev.
Proof. apply omap_app. Qed.

Lemma fetched_progress (tail : list (Event Item Request)) :
  Forall is_progress tail → fetched tail = [].
Proof. induction 1 as [|[] tail Hp _ IH]; done. Qed.

Lemma fetched_for_nil tr ys :
  fetched_for tr ys [] → ys = concat (items <$> fetched tr).
Proof.
  intros [[_ ->]|(tr0 & req & page & tail & pre & -> & Ht & Hi & ->)]; [done|].
  rewrite (right_id_L [] (++)) in Hi.
  change (EvExecute req (inr page) :: tail)
    with ([EvExecute req (inr page)] ++ tail).
  rewrite !fetched_app, (fetched_progress _ Ht), (right_id_L [] (++)).
  rewrite fmap_app, concat_app. cbn. by rewrite Hi, (right_id_L [] (++)).
Qed.

Lemma fetched_for_quiet tr ys ev :
  fetched_for tr ys [] → fetched ev = [] → fetched_for (tr ++ ev) ys [].
Proof.
  intros H Hev. left. split; [done|].
  by rewrite fetched_app, Hev, (right_id_L [] (++)), <-(fetched_for_nil _ _ H).
Qed.

Lemma fetched_for_cons tr ys x rest :
  fetched_for tr ys (x :: rest) →
  fetched_for tr (ys ++ [x]) rest ∧ no_fetch_ahead tr (ys ++ [x]).
Proof.
  intros [[? _]|(tr0 & req & page & tail & pre & -> & Ht & Hi & ->)]; [done|].
  split.
  - right. exists tr0, req, page, tail, (pre ++ [x]).
    split_and!; [done..| |]; by rewrite <-?(assoc_L (++)).
  - exists tr0, req, page, tail, pre, x, rest.
    split_and!; [done..|]. by rewrite <-(assoc_L (++)).
Qed.

(** One step of the page loop keeps the deliveries in line with the
    fetches, and a step that yields does so from the page fetched
    last. *)
Lemma step_page_lazy tr ys g ev sig g' :
  fetched_for tr ys (pending_page g) →
  step_page execute self g = (ev, sig, g') →
  match sig with
  | Yield x =>
      fetched_for (tr ++ ev) (ys ++ [x]) (pending_page g')
      ∧ no_fetch_ahead (tr ++ ev) (ys ++ [x])
  | Tau => fetched_for (tr ++ ev) ys (pending_page g')
  | _ => fetched_for (tr ++ ev) ys [] ∧ pending_page g' = []
  end.
Proof.
  intros Hg Hs. destruct g as [pb desc kw|pb [req|]|pb req res [|x rest]|];
    simpl in Hs, Hg.
  - destruct (call _); simplify_eq; simpl.
    + split; [|done]. by apply fetched_for_quiet.
    + by apply fetched_for_quiet.
  - destruct (execute req) as [e|res].
    + unfold handle in Hs.
      destruct e; try case_match; simplify_eq; simpl;
        (split; [|done]); by apply fetched_for_quiet.
    + simplify_eq. simpl. right.
      exists tr, req, res, (if pb then [EvProgress PageBar (ceil50 (totalResults res))] else []), [].
      split_and!; [done| |done|].
      * destruct pb; repeat constructor.
      * by rewrite (right_id_L [] (++)), <-(fetched_for_nil _ _ Hg).
  - simplify_eq. simpl. split; [|done]. by apply fetched_for_quiet.
  - destruct (call _); simplify_eq; simpl.
    + split; [|done]. by apply fetched_for_quiet.
    + by apply fetched_for_quiet.
  - simplify_eq. simpl. rewrite (right_id_L [] (++)).
    by apply fetched_for_cons.
  - simplify_eq. simpl. split; [|done]. by apply fetched_for_quiet.
Qed.

Lemma fetched_batch_update pb total :
  fetched (batch_update pb total : list (Event Item Request)) = [].
Proof. by destruct pb. Qed.

Lemma step_all_lazy tr ys g ev sig g' :
  fetched_for tr ys (pending_items g) →
  step_all execute self g = (ev, sig, g') →
  fetched_for (tr ++ ev) (ys ++ match sig with Yield x => [x] | _ => [] end)
    (pending_items g')
  ∧ ∀ x, sig = Yield x → no_fetch_ahead (tr ++ ev) (ys ++ [x]).
Proof.
  intros Hg Hs.
  destruct g as [pb desc kw|pb kw ids total [|i pending]
                |pb kw ids total pending inner|inner|]; simpl in Hs, Hg.
  - repeat case_match; simplify_eq; simpl; rewrite !(right_id_L [] (++));
      (split; [done|by intros]).
  - simplify_eq. simpl. by rewrite !(right_id_L [] (++)).
  - simplify_eq. simpl. by rewrite !(right_id_L [] (++)).
  - destruct (step_page execute self inner) as [[ev' sig'] inner'] eqn:Hp.
    pose proof (step_page_lazy _ _ _ _ _ _ Hg Hp) as H.
    destruct sig'; simplify_eq; simpl.
    + destruct H. split; [done|]. intros ? [= <-]. done.
    + by rewrite (right_id_L [] (++)).
    + destruct H as [H _]. rewrite (right_id_L [] (++)), (assoc_L (++)).
      split; [|done]. apply fetched_for_quiet; [done|].
      apply fetched_batch_update.
    + destruct H as [H _]. by rewrite (right_id_L [] (++)).
  - destruct (step_page execute self inner) as [[ev' sig'] inner'] eqn:Hp.
    pose proof (step_page_lazy _ _ _ _ _ _ Hg Hp) as H.
    destruct sig'; simplify_eq; simpl.
    + destruct H. split; [done|]. intros ? [= <-]. done.
    + by rewrite (right_id_L [] (++)).
    + destruct H as [H _]. by rewrite (right_id_L [] (++)).
    + destruct H as [H _]. by rewrite (right_id_L [] (++)).
  - simplify_eq. simpl. by rewrite !(right_id_L [] (++)).
Qed.

Lemma next_lazy fuel tr ys g ev x g' :
  fetched_for tr ys (pending_items g) →
  next (step_all execute self) fuel g = Some (ev, PItem x, g') →
  fetched_for (tr ++ ev) (ys ++ [x]) (pending_items g')
  ∧ no_fetch_ahead (tr ++ ev) (ys ++ [x]).
Proof.
  revert tr g ev. induction fuel as [|fuel IH]; intros tr g ev Hg H; [done|].
  simpl in H. destruct (step_all execute self g) as [[ev1 sig] g1] eqn:Hs.
  destruct (step_all_lazy _ _ _ _ _ _ Hg Hs) as [H1 H2].
  destruct sig; simplify_eq.
  - split; [done|by apply H2].
  - destruct (next _ fuel g1) as [[[ev2 r] g2]|] eqn:E; [|done]. simplify_eq.
    rewrite (right_id_L [] (++)) in H1. rewrite (assoc_L (++)). by eapply IH.
Qed.

Lemma pulls_lazy tr0 ys0 g tr xs g' :
  fetched_for tr0 ys0 (pending_items g) →
  pulls (step_all execute self) g tr xs g' →
  fetched_for (tr0 ++ tr) (ys0 ++ xs) (pending_items g')
  ∧ (xs ≠ [] → no_fetch_ahead (tr0 ++ tr) (ys0 ++ xs)).
Proof.
  intros Hg Hp. revert tr0 ys0 Hg.
  induction Hp as [g|g fuel ev x g1 ev' xs g2 Hn Hp IH]; intros tr0 ys0 Hg.
  - by rewrite !(right_id_L [] (++)).
  - destruct (next_lazy _ _ _ _ _ _ _ Hg Hn) as [H1 H2].
    destruct (IH _ _ H1) as [H3 H4].
    rewrite !(assoc_L (++)), (cons_middle x ys0 xs), !(assoc_L (++)).
    split; [done|]. intros _. destruct xs as [|x' xs]; [|by apply H4].
    inversion Hp; subst. by rewrite !(right_id_L [] (++)).
Qed.

(** C7 (laziness). A consumer that pulled the items [xs] from the
    stream of [yield_all] one [next] at a time and then stopped has
    caused the calls of [tr] and no others. If it pulled nothing, no
    call was made at all. Otherwise the last request executed is the
    one that fetched the page holding the last item pulled; every page
    fetched before it has been delivered in full; and after that fetch
    nothing happened but progress updates: no page after it and no
    later batch has been requested. *)
Theorem yield_all_lazy pb desc kwargs tr xs g :
  pulls (step_all execute self) (yield_all pb desc kwargs) tr xs g →
  (xs = [] ∧ tr = [] ∧ g = yield_all pb desc kwargs)
  ∨ no_fetch_ahead tr xs.
Proof.
  intros Hp. destruct xs as [|x xs].
  - left. by inversion Hp.
  - right.
    assert (fetched_for ([] : list (Event Item Request)) []
              (pending_items (yield_all pb desc kwargs : @AllGen Item Request)))
      as H0 by by left.
    destruct (pulls_lazy _ _ _ _ _ _ H0 Hp) as [_ H]. by apply H.
Qed.
End Claims_lazy.

(** ** The claims on concrete resources *)

(** C1 on three scripted pages: both streams deliver [1; 2; 3]. *)
Lemma yield_all_complete_witness :
  ∃ tr,
    finishes (step_page (script_execute three_pages) (script_wrapper three_pages))
      (_yield_all true (VStr "") part_snippet) tr [1; 2; 3]%nat None PDone
    ∧ finishes (step_all (script_execute three_pages) (script_wrapper three_pages))
        (yield_all true (VStr "") part_snippet) tr [1; 2; 3]%nat None ADone
    ∧ executed tr = [0; 1; 2]%nat.
Proof.
  eexists.
  pose proof (yield_all_complete (script_execute three_pages)
    (script_wrapper three_pages) script_list (script_list_next three_pages)
    true (VStr "") part_snippet
    [(0, page_of [1; 2]); (1, page_of []); (2, page_of [3])]%nat
    eq_refl eq_refl (or_introl eq_refl)
    (PageSeq_cons _ _ 0%nat (page_of [1; 2]%nat) _ None eq_refl
       (PageSeq_cons _ _ 1%nat (page_of []) _ None eq_refl
          (PageSeq_cons _ _ 2%nat (page_of [3%nat]) [] None eq_refl
             (PageSeq_nil _ _ None))))) as (H1 & H2 & H3 & _).
  split_and!; [exact H1|exact H2|exact H3].
Defined.

(** C3 on an endpoint whose first answer is 404. *)
Lemma not_found_first_is_empty_witness :
  ∃ tr,
    finishes (step_page (script_execute [inl (HttpError 404)])
                (script_wrapper [inl (HttpError 404)]))
      (_yield_all false (VStr "") part_snippet) tr [] None PDone.
Proof.
  eexists.
  exact (proj1 (not_found_first_is_empty (script_execute [inl (HttpError 404)])
    (script_wrapper [inl (HttpError 404)]) script_list
    false (VStr "") part_snippet eq_refl eq_refl)).
Defined.

(** C10 on one page followed by a 404. *)
Lemma not_found_later_ends_normally_witness :
  ∃ tr,
    finishes (step_page (script_execute (page_then_error 404))
                (script_wrapper (page_then_error 404)))
      (_yield_all false (VStr "") part_snippet) tr [1; 2]%nat None PDone.
Proof.
  eexists.
  exact (not_found_later_ends_normally (script_execute (page_then_error 404))
    (script_wrapper (page_then_error 404)) script_list
    (script_list_next (page_then_error 404))
    false (VStr "") part_snippet [(0, page_of [1; 2])]%nat 1%nat
    eq_refl eq_refl
    (PageSeq_cons _ _ 0%nat (page_of [1; 2]%nat) _ (Some 1%nat) eq_refl
       (PageSeq_nil _ _ (Some 1%nat)))
    eq_refl).
Defined.

(** C4 on one page followed by a 500. *)
Lemma other_error_propagates_witness :
  ∃ tr,
    finishes (step_page (script_execute (page_then_error 500))
                (script_wrapper (page_then_error 500)))
      (_yield_all false (VStr "") part_snippet) tr [1; 2]%nat
      (Some (HttpError 500)) PDone
    ∧ executed tr = [0; 1]%nat.
Proof.
  eexists.
  pose proof (other_error_propagates (script_execute (page_then_error 500))
    (script_wrapper (page_then_error 500)) script_list
    (script_list_next (page_then_error 500))
    false (VStr "") part_snippet [(0, page_of [1; 2])]%nat 1%nat 500%Z
    eq_refl eq_refl
    (PageSeq_cons _ _ 0%nat (page_of [1; 2]%nat) _ (Some 1%nat) eq_refl
       (PageSeq_nil _ _ (Some 1%nat)))
    eq_refl ltac:(discriminate)) as (H1 & H2 & _).
  split; [exact H1|exact H2].
Defined.

(** C2 on 120 identifiers: three batches of 50, 50 and 20 that make up
    the list, fetched one after the other; the stream delivers the 120
    identifiers in their order. *)
Lemma yield_all_batching_witness :
  length <$> id_batches (ids_of 120) = [50; 50; 20]%nat
  ∧ concat (id_batches (ids_of 120)) = ids_of 120
  ∧ ∃ tr xs,
      finishes (step_all echo_execute echo_wrapper)
        (yield_all false (VStr "") (ids_kwargs 120)) tr xs None ADone
      ∧ xs = ids_of 120
      ∧ executed tr = id_batches (ids_of 120).
Proof.
  destruct (yield_all_batching echo_execute echo_wrapper false (VStr "")
    (ids_kwargs 120) (ids_of 120) ltac:(vm_compute; reflexivity)) as [_ H].
  destruct H as (_ & H2 & _ & H4); [vm_compute; lia|].
  split_and!; [reflexivity|exact H2|].
  eexists _, _. split_and!.
  - apply (H4 (echo_batch 120 <$> id_batches (ids_of 120))).
    apply Forall2_fmap_r, Forall_Forall2_diag, Forall_forall.
    intros b _. exists PDone.
    exact (finishes_pages echo_execute echo_wrapper echo_list echo_list_next
             eq_refl eq_refl false (VStr "")
             (<["id" := VList b]> (delete "id" (ids_kwargs 120)))
             [(b, {| totalResults := Z.of_nat (length b); items := b |})]
             (PageSeq_cons _ _ b _ [] None eq_refl (PageSeq_nil _ _ None))).
  - vm_compute; reflexivity.
  - vm_compute; reflexivity.
Defined.

(** C7 on three scripted pages: after one pull, one page was fetched. *)
Lemma yield_all_lazy_witness :
  ∃ tr g,
    pulls (step_all (script_execute three_pages) (script_wrapper three_pages))
      (yield_all false (VStr "") part_snippet) tr [1%nat] g
    ∧ length (executed tr) = 1%nat
    ∧ no_fetch_ahead tr [1%nat].
Proof.
  assert (∃ tr g,
    pulls (step_all (script_execute three_pages) (script_wrapper three_pages))
      (yield_all false (VStr "") part_snippet) tr [1%nat] g
    ∧ length (executed tr) = 1%nat) as (tr & g & Hp & Hl).
  { eexists _, _. split.
    - eapply (pulls_cons _ _ 5%nat); [reflexivity|apply pulls_nil].
    - reflexivity. }
  exists tr, g. split_and!; [done..|].
  destruct (yield_all_lazy _ _ _ _ _ _ _ _ Hp) as [[? _]|H]; [done|exact H].
Defined.

(** * Further properties of the wrapper and of its callers *)

Section More_generator_facts.
Context {Event Item St : Type}.
Variable step : St → list Event * Signal Item * St.

Lemma drain_run fuel g tr xs r gf :
  drain step fuel g = Some (tr, xs, r, gf) → ∃ n, run step n g = (tr, xs, gf).
Proof.
  revert g tr xs. induction fuel as [|fuel IH]; intros g tr xs H; [done|].
  simpl in H. destruct (step g) as [[ev sig] g1] eqn:Hs. destruct sig.
  - destruct (drain step fuel g1) as [[[[ev' xs'] r'] g2]|] eqn:E; [|done].
    simplify_eq. destruct (IH _ _ _ E) as [n Hn]. exists (S n).
    by rewrite (run_step _ _ _ _ _ _ Hs), Hn.
  - destruct (drain step fuel g1) as [[[[ev' xs'] r'] g2]|] eqn:E; [|done].
    simplify_eq. destruct (IH _ _ _ E) as [n Hn]. exists (S n).
    by rewrite (run_step _ _ _ _ _ _ Hs), Hn.
  - simplify_eq. exists 1%nat. rewrite (run_step _ _ _ _ _ _ Hs). simpl.
    by rewrite (right_id_L [] (++)).
  - simplify_eq. exists 1%nat. rewrite (run_step _ _ _ _ _ _ Hs). simpl.
    by rewrite (right_id_L [] (++)).
Qed.
End More_generator_facts.

Section Constructed.
Context {Item Request : Type}.
Implicit Types (execute : Request → Exn + Response Item)
  (self : Wrapper Item Request) (tr ev : list (Event Item Request)).

(** ** Keyword arguments that are not for the endpoint *)

(** X1. The keys [progress_bar] and [desc] given to [list_all] steer
    the progress bar and never reach the endpoint: every [list] call of
    [list_all] is without them, has [maxResults] 50, and has every key
    other than these and [id] as the caller gave it. *)
Theorem list_all_keeps_bar_arguments execute self fuel kwargs tr r :
  list_all execute self fuel kwargs = Some (tr, r) →
  Forall (λ kw : Kwargs,
    kw !! "progress_bar" = None ∧ kw !! "desc" = None
    ∧ kw !! "maxResults" = Some (VInt 50)
    ∧ ∀ k, k ≠ "id" → k ≠ "maxResults" → k ≠ "progress_bar" → k ≠ "desc" →
           kw !! k = kwargs !! k) (listed tr).
Proof.
  unfold list_all, yield_all_kw. intros H.
  destruct (drain _ fuel _) as [[[[tr' xs] o] gf]|] eqn:Hd; [|done].
  assert (tr' = tr) as -> by (destruct o; by simplify_eq).
  destruct (drain_run _ _ _ _ _ _ _ Hd) as [n Hn].
  pose proof (run_listed execute self
    (delete "desc" (delete "progress_bar" kwargs)) n
    (yield_all (from_option truthy false (kwargs !! "progress_bar"))
       (default (VStr "") (kwargs !! "desc"))
       (delete "desc" (delete "progress_bar" kwargs))) eq_refl) as Hl.
  rewrite Hn in Hl. simpl in Hl.
  eapply Forall_impl; [exact Hl|]. intros kw (Hm & Hk & _). split_and!.
  - rewrite Hk by done. by rewrite lookup_delete_ne, lookup_delete_eq.
  - rewrite Hk by done. by rewrite lookup_delete_eq.
  - done.
  - intros k ????. rewrite Hk by done. by rewrite !lookup_delete_ne.
Qed.

End Constructed.

(** ** The stream of a split request *)

Section Split_stream.
Context {Item Request : Type}.
Variable execute : Request → Exn + Response Item.
Variable self : Wrapper Item Request.
Implicit Types (tr ev : list (Event Item Request))
  (pages : list (Request * Response Item)).

Local Abbreviation step_page := (step_page execute self).
Local Abbreviation step_all := (step_all execute self).

Lemma executed_app tr ev : executed (tr ++ ev) = executed tr ++ executed ev.
Proof. apply omap_app. Qed.

Lemma executed_batch_update pb total :
  executed (batch_update pb total : list (Event Item Request)) = [].
Proof. by destruct pb. Qed.

Lemma listed_pages_trace lnext pb pages :
  listed (pages_trace lnext pb pages) = [].
Proof.
  induction pages as [|[req res] pages IH]; [done|].
  unfold pages_trace in *. rewrite bind_cons, listed_app, IH.
  unfold page_events. by destruct pb.
Qed.

Lemma drain_inner_err fuel pb kw ids total pending g tr xs e gf :
  drain step_page fuel g = Some (tr, xs, Some e, gf) →
  drain step_all fuel (AInner pb kw ids total pending g)
  = Some (tr, xs, Some e, ADone).
Proof.
  revert g tr xs. induction fuel as [|fuel IH]; intros g tr xs H; [done|].
  simpl in *. destruct (step_page g) as [[ev sig] g1]. destruct sig.
  - destruct (drain step_page fuel g1) as [[[[ev' xs'] r'] g2]|] eqn:E; [|done].
    simplify_eq. by rewrite (IH _ _ _ E).
  - destruct (drain step_page fuel g1) as [[[[ev' xs'] r'] g2]|] eqn:E; [|done].
    simplify_eq. by rewrite (IH _ _ _ E).
  - by simplify_eq.
  - by simplify_eq.
Qed.

Lemma finishes_inner_err pb kw ids total pending g tr xs e gf :
  finishes step_page g tr xs (Some e) gf →
  finishes step_all (AInner pb kw ids total pending g) tr xs (Some e) ADone.
Proof.
  intros [n Hn]. exists n. intros fuel Hle. eapply drain_inner_err. by apply Hn.
Qed.

(** The loop goes through the batches whose stream ends normally. *)
Lemma advances_batches pb kw ids total done pending
    (rs : list (list (Event Item Request) * list Item)) :
  Forall2 (λ i r, ∃ gf,
    finishes step_page
      (_yield_all false (VStr "") (<["id" := py_slice ids i (i + 50)]> kw))
      r.1 r.2 None gf) done rs →
  advances step_all (AFor pb kw ids total (done ++ pending))
    (rs ≫= λ r, r.1 ++ batch_update pb total) (rs ≫= snd)
    (AFor pb kw ids total pending).
Proof.
  induction 1 as [|i [tr xs] done rs [gf [n Hn]] _ IH]; [constructor|].
  rewrite !bind_cons. simpl in *.
  change (tr ++ batch_update pb total) with ([] ++ (tr ++ batch_update pb total)).
  rewrite <-(assoc_L (++) []).
  eapply advances_tau; [done|].
  eapply advances_trans; [|apply IH].
  eapply drain_inner_ok. by apply (Hn n).
Qed.

Lemma fmap_split {A B} (f : A → B) (l : list A) k1 y k2 :
  f <$> l = k1 ++ y :: k2 →
  ∃ l1 x l2, l = l1 ++ x :: l2 ∧ k1 = f <$> l1 ∧ y = f x ∧ k2 = f <$> l2.
Proof.
  intros H. apply fmap_app_inv in H as (l1 & l' & -> & H & ->).
  symmetry in H. apply fmap_cons_inv in H as (x & l2 & -> & -> & ->).
  by exists l1, x, l2.
Qed.

(** X3. An exception in the stream of one batch ends the whole stream
    of [yield_all]: when the batches before [b] ended normally and the
    stream of [b] ends with the exception [e], the consumer receives
    the items of the batches before [b], then those of [b], then [e].
    The trace is made of the traces of these batches only: no batch
    after [b] is requested. *)
Theorem split_error_aborts pb desc kwargs (ids : list string) done b later
    (rs : list (list (Event Item Request) * list Item)) tr xs e gf :
  kwargs !! "id" = Some (VList ids) →
  (50 < length ids)%nat →
  id_batches ids = done ++ b :: later →
  Forall2 (λ b r, ∃ gf,
    finishes step_page
      (_yield_all false (VStr "") (<["id" := VList b]> (delete "id" kwargs)))
      r.1 r.2 None gf) done rs →
  finishes step_page
    (_yield_all false (VStr "") (<["id" := VList b]> (delete "id" kwargs)))
    tr xs (Some e) gf →
  finishes step_all (yield_all pb desc kwargs)
    ((rs ≫= λ r,
        r.1 ++ batch_update pb (Z.of_nat (length (id_batches ids)))) ++ tr)
    ((rs ≫= snd) ++ xs) (Some e) ADone.
Proof.
  intros Hid Hlt Hb Hrs Hf.
  unfold id_batches in Hb.
  apply fmap_split in Hb as (idone & i & ilater & Hr & -> & -> & ->).
  apply Forall2_fmap_l in Hrs.
  set (total := Z.of_nat (length (id_batches ids))).
  change ((rs ≫= λ r, r.1 ++ batch_update pb total) ++ tr)
    with ([] ++ ((rs ≫= λ r, r.1 ++ batch_update pb total) ++ tr)).
  eapply finishes_tau.
  { simpl. rewrite Hid. simpl.
    by rewrite (proj2 (Nat.ltb_lt 50 (length ids)) Hlt). }
  rewrite Hr. unfold total, id_batches. rewrite length_fmap, Hr.
  eapply advances_finishes.
  { apply (advances_batches pb _ (VList ids) _ idone (i :: ilater) rs Hrs). }
  change tr with ([] ++ tr). eapply finishes_tau; [done|].
  by eapply finishes_inner_err.
Qed.
End Split_stream.

Section Split_pages.
Context {Item Request : Type}.
Variable execute : Request → Exn + Response Item.
Variable self : Wrapper Item Request.
Variable lst : Kwargs → Request.
Variable lnext : Request → Response Item → option Request.
Hypothesis Hlist : list_ (_resource self) = Callable lst.
Hypothesis Hnext : list_next (_resource self) = Callable lnext.
Implicit Types (tr ev : list (Event Item Request))
  (pages : list (Request * Response Item)).

Local Abbreviation step_page := (step_page execute self).
Local Abbreviation step_all := (step_all execute self).

(** A page stream that meets the end of the pages or a 404. *)
Lemma finishes_normally pb desc kwargs pages o :
  PageSeq execute lnext
    (Some (lst (<["maxResults" := VInt 50]> kwargs))) pages o →
  (o = None ∨ ∃ req, o = Some req ∧ execute req = inl (HttpError 404)) →
  ∃ tr, finishes step_page (_yield_all pb desc kwargs) tr
          (pages_items pages) None PDone
        ∧ listed tr = [<["maxResults" := VInt 50]> kwargs]
        ∧ executed tr = requests_of (pages, o).
Proof.
  intros Hp Ho.
  pose proof (advances_upto execute self lst lnext Hlist Hnext
                pb desc kwargs pages o Hp) as Ha.
  destruct Ho as [->|(req & -> & He)].
  - exists ([EvList (<["maxResults" := VInt 50]> kwargs)]
            ++ pages_trace lnext pb pages). split_and!.
    + pose proof (advances_finishes _ _ _ _ _ _ _ _ _ Ha
        (finishes_return step_page (PWhile pb None) [] PDone eq_refl)) as H.
      rewrite !(right_id_L [] (++)) in H. exact H.
    + by rewrite listed_app, listed_pages_trace.
    + rewrite executed_app, executed_pages_trace. unfold requests_of. simpl.
      by rewrite (right_id_L [] (++)).
  - exists ([EvList (<["maxResults" := VInt 50]> kwargs)]
            ++ pages_trace lnext pb pages
            ++ [EvExecute req (inl (HttpError 404))]). split_and!.
    + pose proof (advances_finishes _ _ _ _ _ _ _ _ _ Ha
        (finishes_return step_page (PWhile pb (Some req))
           [EvExecute req (inl (HttpError 404))] PDone
           ltac:(simpl; by rewrite He))) as H.
      rewrite (right_id_L [] (++)) in H. exact H.
    + by rewrite !listed_app, listed_pages_trace.
    + by rewrite !executed_app, executed_pages_trace.
Qed.

Lemma finishes_batches_pages pb kw ids total pending
    (runs : list (list (Request * Response Item) * option Request)) :
  Forall2 (λ i r,
    PageSeq execute lnext
      (Some (lst (<["maxResults" := VInt 50]>
                    (<["id" := py_slice ids i (i + 50)]> kw)))) r.1 r.2
    ∧ (r.2 = None
       ∨ ∃ req, r.2 = Some req ∧ execute req = inl (HttpError 404)))
    pending runs →
  ∃ tr, finishes step_all (AFor pb kw ids total pending) tr
          (runs ≫= λ r, pages_items r.1) None ADone
        ∧ listed tr
          = (λ i, <["maxResults" := VInt 50]>
                    (<["id" := py_slice ids i (i + 50)]> kw)) <$> pending
        ∧ executed tr = runs ≫= requests_of.
Proof.
  induction 1 as [|i [pages o] pending runs [Hp Ho] _ (tr' & Hf & Hl & He)].
  - exists []. split_and!; [|done..]. by apply finishes_return.
  - simpl in Hp, Ho.
    destruct (finishes_normally false (VStr "") _ _ _ Hp Ho)
      as (tri & [n Hn] & Hli & Hei).
    exists ([] ++ (tri ++ batch_update pb total) ++ tr'). split_and!.
    + rewrite bind_cons. eapply finishes_tau; [done|].
      eapply advances_finishes; [|exact Hf].
      eapply drain_inner_ok. by apply (Hn n).
    + rewrite !listed_app, listed_batch_update, Hli, Hl. done.
    + rewrite !executed_app, executed_batch_update, Hei, He, bind_cons.
      simpl. by rewrite (right_id_L [] (++)).
Qed.

(** X4. The stream of a split request in terms of the endpoint. When,
    for every batch in turn, the endpoint answers some pages and then
    either has no further page or raises the 404 [HttpError], the
    stream of [yield_all] ends normally and delivers the items of all
    these pages, batch after batch: a batch that is not found is
    skipped, and the batches after it are still fetched. Every batch is
    requested once, in order, and the requests executed are those of
    the pages and the ones that were not found. *)
Theorem split_stream_items pb desc kwargs (ids : list string)
    (runs : list (list (Request * Response Item) * option Request)) :
  kwargs !! "id" = Some (VList ids) →
  (50 < length ids)%nat →
  Forall2 (λ b r,
    PageSeq execute lnext (Some (lst (batch_kw kwargs (VList b)))) r.1 r.2
    ∧ (r.2 = None
       ∨ ∃ req, r.2 = Some req ∧ execute req = inl (HttpError 404)))
    (id_batches ids) runs →
  ∃ tr,
    finishes step_all (yield_all pb desc kwargs) tr
      (runs ≫= λ r, pages_items r.1) None ADone
    ∧ listed tr = (λ b, batch_kw kwargs (VList b)) <$> id_batches ids
    ∧ executed tr = runs ≫= requests_of.
Proof.
  intros Hid Hlt Hruns.
  unfold id_batches in Hruns. apply Forall2_fmap_l in Hruns.
  destruct (finishes_batches_pages pb (delete "id" kwargs) (VList ids)
              (Z.of_nat (length (py_range 0 (length ids) 50))) _ _ Hruns)
    as (tr & Hf & Hl & He).
  exists ([] ++ tr). split_and!.
  - eapply finishes_tau; [|exact Hf].
    simpl. rewrite Hid. simpl.
    by rewrite (proj2 (Nat.ltb_lt 50 (length ids)) Hlt).
  - simpl. rewrite Hl. unfold id_batches. by rewrite <-list_fmap_compose.
  - done.
Qed.
End Split_pages.

(** ** The progress flag *)

Section Progress_flag.
Context {Item Request : Type}.
Variable execute : Request → Exn + Response Item.
Variable self : Wrapper Item Request.
Implicit Types tr ev : list (Event Item Request).

Local Abbreviation step_page := (step_page execute self).
Local Abbreviation step_all := (step_all execute self).

Lemma silent_app tr ev : silent (tr ++ ev) = silent tr ++ silent ev.
Proof. apply omap_app. Qed.

Lemma silent_batch_update pb total :
  silent (batch_update pb total : list (Event Item Request)) = [].
Proof. by destruct pb. Qed.

Lemma step_page_mute g :
  step_page (mute_page g)
  = ((λ '(ev, sig, g'), (silent ev, sig, mute_page g')) (step_page g)).
Proof.
  destruct g as [pb desc kw|pb [req|]|pb req res [|x rest]|]; simpl; try done.
  - by destruct (call _).
  - destruct (execute req) as [e|res]; [|by destruct pb].
    unfold handle. destruct e; try done. by case_match.
  - by destruct (call _).
Qed.

Lemma step_all_mute g :
  step_all (mute_all g)
  = ((λ '(ev, sig, g'), (silent ev, sig, mute_all g')) (step_all g)).
Proof.
  destruct g as [pb desc kw|pb kw ids total [|i pending]
                |pb kw ids total pending inner|inner|]; simpl; try done.
  - repeat case_match; done.
  - rewrite step_page_mute.
    destruct (step_page inner) as [[ev sig] inner']. destruct sig; try done.
    by rewrite silent_app, silent_batch_update, !(right_id_L [] (++)).
  - rewrite step_page_mute.
    destruct (step_page inner) as [[ev sig] inner']. by destruct sig.
Qed.

Lemma drain_mute fuel g :
  drain step_all fuel (mute_all g)
  = (λ '(tr, xs, r, gf), (silent tr, xs, r, mute_all gf))
      <$> drain step_all fuel g.
Proof.
  revert g. induction fuel as [|fuel IH]; intros g; [done|].
  simpl. rewrite step_all_mute.
  destruct (step_all g) as [[ev sig] g1]. destruct sig; try done.
  - rewrite IH. destruct (drain step_all fuel g1) as [[[[ev' xs] r] g2]|]; [|done].
    simpl. by rewrite silent_app.
  - rewrite IH. destruct (drain step_all fuel g1) as [[[[ev' xs] r] g2]|]; [|done].
    simpl. by rewrite silent_app.
Qed.

(** X5. The progress flag changes nothing but the progress updates.
    Draining the stream of [yield_all] with the progress bar disabled
    gives the same items and ends the same way (normally, or with the
    same exception) as with any value of [progress_bar], and its trace
    is the other trace without the progress updates: the same [list],
    [execute] and [list_next] calls in the same order. *)
Theorem progress_bar_does_not_change_stream pb desc kwargs fuel :
  drain step_all fuel (yield_all false desc kwargs)
  = (λ '(tr, xs, r, gf), (silent tr, xs, r, mute_all gf))
      <$> drain step_all fuel (yield_all pb desc kwargs).
Proof. apply (drain_mute fuel (yield_all pb desc kwargs)). Qed.

Lemma step_page_bar pb g ev sig g' :
  bar_is pb g → step_page g = (ev, sig, g') →
  progress ev = (if pb then page_update <$> fetched ev else [])
  ∧ bar_is pb g'.
Proof.
  intros Hg Hs. destruct g as [pb' desc kw|pb' [req|]|pb' req res [|x rest]|];
    simpl in Hs, Hg; try subst pb'.
  - destruct (call _); simplify_eq; by destruct pb.
  - destruct (execute req) as [e|res]; [|simplify_eq; by destruct pb].
    unfold handle in Hs.
    destruct e as [c| | | |]; [destruct (c =? 404)%Z|..]; simplify_eq;
      by destruct pb.
  - simplify_eq. by destruct pb.
  - destruct (call _); simplify_eq; by destruct pb.
  - simplify_eq. by destruct pb.
  - simplify_eq. by destruct pb.
Qed.

Lemma run_plain_bar pb n g :
  bar_is pb g →
  progress (run step_all n (APlain g)).1.1
  = (if pb then page_update <$> fetched (run step_all n (APlain g)).1.1 else []).
Proof.
  revert g. induction n as [|n IH]; intros g Hg; [by destruct pb|].
  destruct (step_page g) as [[ev sig] g1] eqn:Hp.
  destruct (step_page_bar _ _ _ _ _ Hg Hp) as [Hev Hg1].
  assert (∀ m, (run step_all m ADone).1.1 = ([] : list (Event Item Request)))
    as Hdone.
  { induction m as [|m IHm]; [done|].
    by rewrite (run_step step_all m ADone [] Return ADone eq_refl). }
  destruct sig.
  - rewrite (run_step step_all n (APlain g) ev (Yield x) (APlain g1))
      by (simpl; by rewrite Hp).
    simpl. rewrite progress_app, (fetched_app (Item:=Item)), Hev, (IH _ Hg1).
    destruct pb; [by rewrite fmap_app|done].
  - rewrite (run_step step_all n (APlain g) ev Tau (APlain g1))
      by (simpl; by rewrite Hp).
    simpl. rewrite progress_app, (fetched_app (Item:=Item)), Hev, (IH _ Hg1).
    destruct pb; [by rewrite fmap_app|done].
  - rewrite (run_step step_all n (APlain g) ev Return ADone)
      by (simpl; by rewrite Hp).
    simpl. rewrite Hdone, !(right_id_L [] (++)). done.
  - rewrite (run_step step_all n (APlain g) ev (Raise e) ADone)
      by (simpl; by rewrite Hp).
    simpl. rewrite Hdone, !(right_id_L [] (++)). done.
Qed.

(** X6. In a stream that is not split, the page bar is updated once
    for every page received, with the total
    [ceil(totalResults / 50)] of that page, and at no other moment;
    with the progress bar disabled there is no update at all. This
    holds however far the stream is run, for the pages whose
    [totalResults] is a count that a float represents exactly (from
    0 to [2^53]), where the division of the source is exact. *)
Theorem page_progress_per_fetch pb desc kwargs n :
  (kwargs !! "id" = None
   ∨ ∃ v len, kwargs !! "id" = Some v ∧ py_len v = Some len ∧ (len ≤ 50)%nat) →
  let tr := (run step_all n (yield_all pb desc kwargs)).1.1 in
  Forall (λ res, (0 ≤ totalResults res < 2 ^ 53)%Z) (fetched tr) →
  progress tr = (if pb then page_update <$> fetched tr else []).
Proof.
  intros Hk tr _. unfold tr. clear tr.
  destruct n as [|n]; [by destruct pb|].
  rewrite (run_step _ _ _ _ _ _ (step_all_unsplit execute self pb desc kwargs Hk)).
  simpl. by apply run_plain_bar.
Qed.
End Progress_flag.

(** ** The requests of a split stream *)

Section Split_requests.
Context {Item Request : Type}.
Variable execute : Request → Exn + Response Item.
Variable self : Wrapper Item Request.
Implicit Types tr ev : list (Event Item Request).

Local Abbreviation step_page := (step_page execute self).
Local Abbreviation step_all := (step_all execute self).

Lemma step_page_started g ev sig g' :
  step_page g = (ev, sig, g') →
  (∀ pb desc kw, g' ≠ PStart pb desc kw)
  ∧ ((∀ pb desc kw, g ≠ PStart pb desc kw) → listed ev = []).
Proof.
  intros Hs. destruct g as [pb desc kw|pb [req|]|pb req res [|x rest]|];
    simpl in Hs.
  - destruct (call _); simplify_eq; (split; [done|]); intros H; by destruct (H pb desc kw).
  - destruct (execute req) as [e|res].
    + unfold handle in Hs.
      destruct e as [c| | | |]; [destruct (c =? 404)%Z|..]; by simplify_eq.
    + simplify_eq. split; [done|]. by destruct pb.
  - by simplify_eq.
  - destruct (call _); by simplify_eq.
  - by simplify_eq.
  - by simplify_eq.
Qed.

Lemma step_all_batches_listed kwargs ids range tr g ev sig g' :
  batches_listed kwargs ids range tr g →
  step_all g = (ev, sig, g') →
  batches_listed kwargs ids range (tr ++ ev) g'
  ∧ match sig with
    | Return =>
        g ≠ ADone →
        listed (tr ++ ev)
        = (λ i, batch_kw kwargs (py_slice ids i (i + 50))) <$> range
    | Raise _ => True
    | _ => g' ≠ ADone
    end.
Proof.
  intros Hg Hs.
  destruct g as [pb desc kw|pb kw ids' total [|i pending]
                |pb kw ids' total pending inner|inner|]; simpl in Hs, Hg;
    try done.
  - destruct Hg as (-> & -> & done & Hr & Hl). simplify_eq. simpl.
    rewrite !(right_id_L [] (++)) in *. split; [by exists done|done].
  - destruct Hg as (-> & -> & done & Hr & Hl). simplify_eq. simpl.
    rewrite !(right_id_L [] (++)). split; [|done].
    split_and!; [done..|]. by exists done, i.
  - destruct Hg as (-> & -> & done & i & Hr & Hi).
    destruct (step_page inner) as [[ev' sig'] inner'] eqn:Hp.
    destruct (step_page_started _ _ _ _ Hp) as [Hns Hq].
    assert (listed (tr ++ ev')
            = (λ i, batch_kw kwargs (py_slice ids i (i + 50))) <$> (done ++ [i])
            ∨ (listed (tr ++ ev')
               = (λ i, batch_kw kwargs (py_slice ids i (i + 50))) <$> done
               ∧ ∃ e, sig' = Raise e)) as Hl.
    { rewrite listed_app. destruct inner as [pb' desc kw|pb' req|pb' req res rest|].
      - destruct Hi as [-> Hl]. simpl in Hp.
        destruct (call _); simplify_eq; simpl.
        + right. rewrite (right_id_L [] (++)). split; [done|]. by eexists.
        + left. by rewrite Hl, fmap_app.
      - left. by rewrite Hq, (right_id_L [] (++)).
      - left. by rewrite Hq, (right_id_L [] (++)).
      - left. by rewrite Hq, (right_id_L [] (++)). }
    destruct sig'; simplify_eq; simpl.
    + destruct Hl as [Hl|[_ [? ?]]]; [|done]. split; [|done].
      split_and!; [done..|]. exists done, i. split; [done|].
      destruct inner'; [by destruct (Hns progress_bar desc kwargs0)|done..].
    + destruct Hl as [Hl|[_ [? ?]]]; [|done]. split; [|done].
      split_and!; [done..|]. exists done, i. split; [done|].
      destruct inner'; [by destruct (Hns progress_bar desc kwargs0)|done..].
    + destruct Hl as [Hl|[_ [? ?]]]; [|done]. split; [|done].
      split_and!; [done..|]. exists (done ++ [i]).
      rewrite <-(assoc_L (++)). split; [done|].
      by rewrite (assoc_L (++)), listed_app, listed_batch_update,
        (right_id_L [] (++)).
    + split; [|done]. destruct Hl as [Hl|[Hl _]].
      * exists (done ++ [i]). split; [|done].
        rewrite (cons_middle i done pending), (assoc_L (++)).
        by apply prefix_app_r.
      * exists done. split; [|done]. by apply prefix_app_r.
  - destruct Hg as (done & Hpre & Hl). simplify_eq. simpl.
    rewrite !(right_id_L [] (++)). split; [by exists done|done].
Qed.

Lemma batches_listed_prefix kwargs ids range tr g :
  batches_listed kwargs ids range tr g →
  listed tr `prefix_of`
    (λ i, batch_kw kwargs (py_slice ids i (i + 50))) <$> range.
Proof.
  destruct g as [pb desc kw|pb kw ids' total pending
                |pb kw ids' total pending inner|inner|]; simpl; try done.
  - intros (_ & _ & done & -> & ->). rewrite fmap_app. by apply prefix_app_r.
  - intros (_ & _ & done & i & -> & H).
    assert (listed tr = (λ i, batch_kw kwargs (py_slice ids i (i + 50))) <$> done
            ∨ listed tr
              = (λ i, batch_kw kwargs (py_slice ids i (i + 50))) <$> (done ++ [i]))
      as [->| ->] by (destruct inner; [left; apply H|by right..]).
    + rewrite fmap_app. by apply prefix_app_r.
    + rewrite (cons_middle i done pending), (assoc_L (++)), (fmap_app _ (done ++ [i])).
      by apply prefix_app_r.
  - intros (done & [k ->] & ->). rewrite fmap_app. by apply prefix_app_r.
Qed.

Lemma run_batches_listed kwargs ids range n tr g :
  batches_listed kwargs ids range tr g →
  batches_listed kwargs ids range (tr ++ (run step_all n g).1.1)
    (run step_all n g).2.
Proof.
  revert tr g. induction n as [|n IH]; intros tr g Hg.
  - simpl. by rewrite (right_id_L [] (++)).
  - destruct (step_all g) as [[ev sig] g1] eqn:Hs.
    rewrite (run_step _ _ _ _ _ _ Hs). simpl.
    destruct (step_all_batches_listed _ _ _ _ _ _ _ _ Hg Hs) as [Hg1 _].
    rewrite (assoc_L (++)). by apply IH.
Qed.

Lemma drain_batches_listed kwargs ids range fuel tr g tr' xs gf :
  batches_listed kwargs ids range tr g → g ≠ ADone →
  drain step_all fuel g = Some (tr', xs, None, gf) →
  listed (tr ++ tr')
  = (λ i, batch_kw kwargs (py_slice ids i (i + 50))) <$> range.
Proof.
  revert tr g tr' xs. induction fuel as [|fuel IH]; intros tr g tr' xs Hg Hne H;
    [done|].
  simpl in H. destruct (step_all g) as [[ev sig] g1] eqn:Hs.
  destruct (step_all_batches_listed _ _ _ _ _ _ _ _ Hg Hs) as [Hg1 Hsig].
  destruct sig.
  - destruct (drain _ fuel g1) as [[[[ev' xs'] r'] g2]|] eqn:E; [|done].
    simplify_eq. rewrite (assoc_L (++)). by eapply IH.
  - destruct (drain _ fuel g1) as [[[[ev' xs'] r'] g2]|] eqn:E; [|done].
    simplify_eq. rewrite (assoc_L (++)). by eapply IH.
  - simplify_eq. by apply Hsig.
  - done.
Qed.

Lemma split_listed pb desc kwargs ids len :
  kwargs !! "id" = Some ids → py_len ids = Some len → (50 < len)%nat →
  (∀ n, listed (run step_all n (yield_all pb desc kwargs)).1.1
        `prefix_of`
        (λ i, batch_kw kwargs (py_slice ids i (i + 50))) <$> py_range 0 len 50)
  ∧ ∀ fuel tr xs gf,
      drain step_all fuel (yield_all pb desc kwargs) = Some (tr, xs, None, gf) →
      listed tr
      = (λ i, batch_kw kwargs (py_slice ids i (i + 50))) <$> py_range 0 len 50.
Proof.
  intros Hid Hlen Hlt.
  assert (step_all (yield_all pb desc kwargs)
          = ([], Tau, AFor pb (delete "id" kwargs) ids
                        (Z.of_nat (length (py_range 0 len 50)))
                        (py_range 0 len 50))) as Hs.
  { simpl. by rewrite Hid, Hlen, (proj2 (Nat.ltb_lt 50 len) Hlt). }
  assert (batches_listed kwargs ids (py_range 0 len 50)
            ([] : list (Event Item Request))
            (AFor pb (delete "id" kwargs) ids
               (Z.of_nat (length (py_range 0 len 50))) (py_range 0 len 50)))
    as Hinv.
  { simpl. split_and!; [done..|]. by exists []. }
  split.
  - intros [|n]; [apply prefix_nil|]. rewrite (run_step _ _ _ _ _ _ Hs). simpl.
    eapply batches_listed_prefix.
    apply (run_batches_listed _ _ _ n _ _ Hinv).
  - intros [|fuel] tr xs gf H; [done|]. rewrite (drain_tau _ _ _ _ _ Hs) in H.
    destruct (drain _ fuel _) as [[[[ev' xs'] r'] g2]|] eqn:E; [|done].
    cbn [fmap option_fmap option_map] in H. simplify_eq.
    by apply (drain_batches_listed _ _ _ _ _ _ _ _ _ Hinv ltac:(done) E).
Qed.

(** X7. The [list] calls of a split stream follow the batches. With an
    [id] of more than 50 elements, however far the stream of
    [yield_all] is run, the [list] calls made so far are those for the
    slices [ids[0:50]], [ids[50:100]], ... in this order, one call for
    each batch begun and none repeated or skipped; and a stream that
    ends normally has made the call for every batch. *)
Theorem split_requests_in_batch_order pb desc kwargs ids len :
  kwargs !! "id" = Some ids → py_len ids = Some len → (50 < len)%nat →
  let expected :=
    (λ i, batch_kw kwargs (py_slice ids i (i + 50))) <$> py_range 0 len 50 in
  (∀ n, listed (run step_all n (yield_all pb desc kwargs)).1.1
        `prefix_of` expected)
  ∧ ∀ fuel tr xs gf,
      drain step_all fuel (yield_all pb desc kwargs) = Some (tr, xs, None, gf) →
      listed tr = expected.
Proof. intros Hid Hlen Hlt expected. by apply split_listed. Qed.
End Split_requests.

(** ** The loop of [get_videos] *)

Section Get_videos.
Context {Item Request : Type}.
Variable execute : Request → Exn + Response Item.
Variable published : Item → Z.
Variable self : Wrapper Item Request.
Variable last_year : Z.
Implicit Types (tr ev : list (Event Item Request)) (g : @AllGen Item Request).

Local Abbreviation step_page := (step_page execute self).
Local Abbreviation step_all := (step_all execute self).
Local Abbreviation collect := (collect_recent execute published self last_year).
Local Abbreviation collects := (collects execute published self last_year).

Lemma collect_S fuel g :
  collect (S fuel) g
  = match next step_all (S fuel) g with
    | None => None
    | Some (ev, StopIteration, _) => Some (ev, inr [])
    | Some (ev, Raised e, _) => Some (ev, inl e)
    | Some (ev, PItem item, g') =>
        if (published item <? last_year)%Z then Some (ev, inr [])
        else
          match collect fuel g' with
          | Some (ev', inr items) => Some (ev ++ ev', inr (item :: items))
          | Some (ev', inl e) => Some (ev ++ ev', inl e)
          | None => None
          end
    end.
Proof. done. Qed.

Lemma next_S fuel g :
  next step_all (S fuel) g
  = let '(ev, sig, g') := step_all g in
    match sig with
    | Yield x => Some (ev, PItem x, g')
    | Return => Some (ev, StopIteration, g')
    | Raise e => Some (ev, Raised e, g')
    | Tau =>
        match next step_all fuel g' with
        | Some (ev', r, g'') => Some (ev ++ ev', r, g'')
        | None => None
        end
    end.
Proof. done. Qed.

Lemma collect_mono fuel fuel' g res :
  collect fuel g = Some res → (fuel ≤ fuel')%nat → collect fuel' g = Some res.
Proof.
  revert fuel' g res. induction fuel as [|fuel IH]; intros fuel' g res H Hle;
    [done|].
  destruct fuel' as [|fuel']; [lia|]. rewrite collect_S in *.
  destruct (next step_all (S fuel) g) as [[[ev p] g1]|] eqn:En; [|done].
  rewrite (next_mono _ _ (S fuel') _ _ En) by lia.
  destruct p as [x| |e]; [|done..].
  destruct (published x <? last_year)%Z; [done|].
  destruct (collect fuel g1) as [[ev' r]|] eqn:Ec; [|done].
  by rewrite (IH fuel' _ _ Ec) by lia.
Qed.

Lemma collects_return g ev g' :
  step_all g = (ev, Return, g') → collects g (ev, inr []).
Proof.
  intros Hs. exists 1%nat. intros [|fuel] Hle; [lia|].
  by rewrite collect_S, next_S, Hs.
Qed.

Lemma collects_raise g ev e g' :
  step_all g = (ev, Raise e, g') → collects g (ev, inl e).
Proof.
  intros Hs. exists 1%nat. intros [|fuel] Hle; [lia|].
  by rewrite collect_S, next_S, Hs.
Qed.

Lemma collects_old g ev x g' :
  step_all g = (ev, Yield x, g') → (published x < last_year)%Z →
  collects g (ev, inr []).
Proof.
  intros Hs Hx. exists 1%nat. intros [|fuel] Hle; [lia|].
  by rewrite collect_S, next_S, Hs, (proj2 (Z.ltb_lt _ _) Hx).
Qed.

Lemma collects_recent g ev x g' tr r :
  step_all g = (ev, Yield x, g') → (last_year ≤ published x)%Z →
  collects g' (tr, r) →
  collects g (ev ++ tr, match r with inr xs => inr (x :: xs) | inl e => inl e end).
Proof.
  intros Hs Hx [n Hn]. exists (S n). intros [|fuel] Hle; [lia|].
  rewrite collect_S, next_S, Hs.
  rewrite (proj2 (Z.ltb_ge _ _) Hx), (Hn fuel) by lia. by destruct r.
Qed.

Lemma collects_tau g ev g' tr r :
  step_all g = (ev, Tau, g') → collects g' (tr, r) → collects g (ev ++ tr, r).
Proof.
  intros Hs [n Hn]. exists (S (S n)). intros [|[|fuel]] Hle; [lia..|].
  pose proof (Hn (S fuel) ltac:(lia)) as H.
  rewrite collect_S in H. rewrite collect_S, next_S, Hs.
  destruct (next step_all (S fuel) g') as [[[ev1 p] g1]|] eqn:En; [|done].
  destruct p as [x| |e]; [|by simplify_eq..].
  destruct (published x <? last_year)%Z; [by simplify_eq|].
  destruct (collect fuel g1) as [[ev' r']|] eqn:Ec; [|done].
  rewrite (collect_mono _ (S fuel) _ _ Ec) by lia.
  destruct r'; simplify_eq; by rewrite (assoc_L (++)).
Qed.

Lemma collects_advances g tr xs g' tr' r :
  advances step_all g tr xs g' →
  Forall (λ x, (last_year ≤ published x)%Z) xs →
  collects g' (tr', r) →
  collects g (tr ++ tr',
              match r with inr ys => inr (xs ++ ys) | inl e => inl e end).
Proof.
  induction 1 as [g|g ev x g1 ev' xs g2 Hs _ IH|g ev g1 ev' xs g2 Hs _ IH];
    intros Hxs Hc.
  - by destruct r.
  - apply Forall_cons in Hxs as [Hx Hxs]. rewrite <-(assoc_L (++)).
    pose proof (collects_recent _ _ _ _ _ _ Hs Hx (IH Hxs Hc)) as H.
    by destruct r.
  - rewrite <-(assoc_L (++)). eapply collects_tau; eauto.
Qed.

Lemma advances_plain (g g' : @PageGen Item Request) tr xs :
  advances step_page g tr xs g' →
  advances step_all (APlain g) tr xs (APlain g').
Proof.
  induction 1 as [g|g ev x g1 ev' xs g2 Hs _ IH|g ev g1 ev' xs g2 Hs _ IH].
  - constructor.
  - eapply advances_yield; [simpl; by rewrite Hs|done].
  - eapply advances_tau; [simpl; by rewrite Hs|done].
Qed.

Lemma advances_items_app pb req res pre rest :
  advances step_page (PFor pb req res (pre ++ rest)) [] pre
    (PFor pb req res rest).
Proof.
  induction pre as [|x pre IH]; [constructor|].
  exact (advances_yield step_page (PFor pb req res (x :: pre ++ rest)) [] x
           (PFor pb req res (pre ++ rest)) [] pre _ eq_refl IH).
Qed.
End Get_videos.

Section Get_videos_claims.
Context {Item Request : Type}.
Implicit Types (execute : Request → Exn + Response Item)
  (published : Item → Z) (resource : Resource Item Request)
  (lst : Kwargs → Request)
  (lnext : Request → Response Item → option Request)
  (pages : list (Request * Response Item)).

Lemma playlist_kwargs_unsplit playlist_id :
  playlist_kwargs playlist_id !! "id" = None.
Proof.
  unfold playlist_kwargs. by rewrite !lookup_insert_ne, lookup_empty.
Qed.

(** X8. [get_videos] stops at the first video that is too old. When
    the endpoint answers the pages [earlier] and then a page whose
    items are [pre], then [old], then [rest], where [old] is the first
    item published before [today - 365], the loop keeps exactly the
    items before [old], in order, and returns normally. The page
    holding [old] is the last one requested: what [list_next] gives for
    it is never executed, whether it would have answered or failed. *)
Theorem get_videos_stops_at_first_old
    execute published resource lst lnext today playlist_id
    earlier req res pre old rest :
  list_ resource = Callable lst →
  list_next resource = Callable lnext →
  PageSeq execute lnext
    (Some (lst (<["maxResults" := VInt 50]> (playlist_kwargs playlist_id))))
    earlier (Some req) →
  execute req = inr res →
  items res = pre ++ old :: rest →
  Forall (λ x, (today - 365 ≤ published x)%Z) (pages_items earlier ++ pre) →
  (published old < today - 365)%Z →
  ∃ tr,
    (∃ n, ∀ fuel, (n ≤ fuel)%nat →
       get_videos_items execute published resource today fuel playlist_id
       = Some (tr, inr (pages_items earlier ++ pre)))
    ∧ executed tr = earlier.*1 ++ [req]
    ∧ fetched tr = earlier.*2 ++ [res].
Proof.
  intros Hlist Hnext Hp He Hi Hrecent Hold.
  set (self := {| _resource := resource |}).
  set (kw := <["maxResults" := VInt 50]> (playlist_kwargs playlist_id)).
  exists ([] ++ (EvList kw :: pages_trace lnext false earlier)
             ++ [EvExecute req (inr res)] ++ []).
  split_and!.
  - assert (collects execute published self (today - 365)
              (yield_all false (VStr "") (playlist_kwargs playlist_id))
              ([] ++ (EvList kw :: pages_trace lnext false earlier)
                  ++ [EvExecute req (inr res)] ++ [],
               inr (pages_items earlier ++ pre))) as [n Hn].
    { eapply collects_tau.
      { apply step_all_unsplit. left. apply playlist_kwargs_unsplit. }
      rewrite <-(right_id_L [] (++) (pages_items earlier ++ pre)).
      rewrite <-(assoc_L (++) (pages_items earlier)).
      apply Forall_app in Hrecent as [Hr1 Hr2].
      apply (collects_advances execute published self (today - 365) _ _ _ _ _
               (inr (pre ++ []))
               (advances_plain execute self _ _ _ _
                  (advances_upto execute self lst lnext Hlist Hnext false (VStr "")
                     (playlist_kwargs playlist_id) earlier (Some req) Hp)) Hr1).
      eapply collects_tau; [simpl; by rewrite He|].
      rewrite Hi.
      apply (collects_advances execute published self (today - 365) _ _ _ _ _
               (inr [])
               (advances_plain execute self _ _ _ _
                  (advances_items_app execute self false req res pre (old :: rest)))
               Hr2).
      by eapply collects_old. }
    exists n. intros fuel Hle. unfold get_videos_items, __init__.
    rewrite Hlist, Hnext. simpl. by apply Hn.
  - simpl. unfold executed. rewrite omap_app.
    pose proof (executed_pages_trace lnext false earlier) as H.
    unfold executed in H. by rewrite H.
  - simpl. unfold fetched. rewrite omap_app.
    assert (∀ ps : list (Request * Response Item),
              fetched (pages_trace lnext false ps) = ps.*2) as H.
    { induction ps as [|[r p] ps IH]; [done|].
      unfold pages_trace in *. rewrite bind_cons. unfold fetched in *.
      by rewrite omap_app, IH. }
    unfold fetched in H. by rewrite H.
Qed.

(** X9. [get_videos] keeps everything when nothing is too old. When
    the endpoint answers the pages [pages] and then has no further page
    or raises the 404 [HttpError], and no item was published before
    [today - 365], the loop returns normally with all the items of
    these pages in order; in particular a playlist that is not found
    gives the empty list. *)
Theorem get_videos_keeps_recent
    execute published resource lst lnext today playlist_id pages o :
  list_ resource = Callable lst →
  list_next resource = Callable lnext →
  PageSeq execute lnext
    (Some (lst (<["maxResults" := VInt 50]> (playlist_kwargs playlist_id))))
    pages o →
  (o = None ∨ ∃ req, o = Some req ∧ execute req = inl (HttpError 404)) →
  Forall (λ x, (today - 365 ≤ published x)%Z) (pages_items pages) →
  ∃ tr n, ∀ fuel, (n ≤ fuel)%nat →
    get_videos_items execute published resource today fuel playlist_id
    = Some (tr, inr (pages_items pages)).
Proof.
  intros Hlist Hnext Hp Ho Hrecent.
  set (self := {| _resource := resource |}).
  assert (∃ tail, collects execute published self (today - 365)
            (APlain (PWhile false o)) (tail, inr [])) as [tail Ht].
  { destruct Ho as [->|(req & -> & He)].
    - exists []. by eapply collects_return.
    - exists [EvExecute req (inl (HttpError 404))].
      eapply collects_return. simpl. by rewrite He. }
  assert (collects execute published self (today - 365)
            (yield_all false (VStr "") (playlist_kwargs playlist_id))
            ([] ++ (EvList (<["maxResults" := VInt 50]>
                              (playlist_kwargs playlist_id))
                      :: pages_trace lnext false pages) ++ tail,
             inr (pages_items pages))) as [n Hn].
  { eapply collects_tau.
    { apply step_all_unsplit. left. apply playlist_kwargs_unsplit. }
    rewrite <-(right_id_L [] (++) (pages_items pages)).
    apply (collects_advances execute published self (today - 365) _ _ _ _ _
             (inr [])
             (advances_plain execute self _ _ _ _
                (advances_upto execute self lst lnext Hlist Hnext false (VStr "")
                   (playlist_kwargs playlist_id) pages o Hp)) Hrecent Ht). }
  eexists _, n. intros fuel Hle. unfold get_videos_items, __init__.
  rewrite Hlist, Hnext. simpl. by apply Hn.
Qed.
End Get_videos_claims.

(** ** The requests of [get_video_durations] *)

Section Durations.
Context {Item Request : Type}.
Implicit Types (execute : Request → Exn + Response Item)
  (resource : Resource Item Request) (tr : list (Event Item Request)).

Lemma durations_kwargs (video_ids : list string) :
  delete "desc" (delete "progress_bar"
    (<["part" := VStr "contentDetails"]>
       (<["id" := VList video_ids]>
          (<["progress_bar" := VBool true]>
             (<["desc" := VStr "Get video durations"]> ∅)))))
  = (<["part" := VStr "contentDetails"]> (<["id" := VList video_ids]> ∅) : Kwargs).
Proof.
  apply map_eq. intros k.
  repeat (rewrite ?lookup_delete, ?lookup_insert, ?lookup_empty; try case_decide);
    simplify_eq; done.
Qed.

Lemma durations_batch_kw (video_ids b : list string) :
  batch_kw (<["part" := VStr "contentDetails"]> (<["id" := VList video_ids]> ∅))
    (VList b)
  = <["maxResults" := VInt 50]>
      (<["id" := VList b]> (<["part" := VStr "contentDetails"]> ∅)).
Proof.
  unfold batch_kw. by f_equal.
Qed.

(** X10. [get_video_durations] asks for every video once, 50 at a
    time. When it gets its items for more than 50 video ids, the
    [list] calls it made are, in order, one for each slice of 50 ids
    (the last one shorter), each with [part] "contentDetails",
    [maxResults] 50 and no other key: the [progress_bar] and [desc]
    arguments are not sent, and no id is asked for twice or left
    out. *)
Theorem get_video_durations_requests execute resource fuel video_ids tr xs :
  (50 < length video_ids)%nat →
  get_video_durations_items execute resource fuel video_ids = Some (tr, inr xs) →
  listed tr
  = (λ b, <["maxResults" := VInt 50]>
            (<["id" := VList b]> (<["part" := VStr "contentDetails"]> ∅)))
      <$> id_batches video_ids
  ∧ concat (id_batches video_ids) = video_ids.
Proof.
  intros Hlt H. split; [|apply concat_id_batches].
  unfold get_video_durations_items, wrapped_list_all in H.
  destruct (__init__ resource) as [e|self]; [by simplify_eq|].
  unfold list_all, yield_all_kw in H. rewrite durations_kwargs in H.
  destruct (drain _ fuel _) as [[[[tr' xs'] o] gf]|] eqn:Hd; [|done].
  destruct o; simplify_eq.
  assert ((<["part" := VStr "contentDetails"]>
             (<["id" := VList video_ids]> ∅) : Kwargs) !! "id"
          = Some (VList video_ids)) as Hid
    by (by rewrite lookup_insert_ne, lookup_insert_eq).
  destruct (split_listed execute self true (VStr "Get video durations") _
              (VList video_ids) (length video_ids) Hid eq_refl Hlt) as [_ Hl].
  rewrite (Hl _ _ _ _ Hd). unfold id_batches. rewrite <-list_fmap_compose.
  apply list_fmap_ext. intros _ i _. simpl. apply durations_batch_kw.
Qed.
End Durations.

(** ** An [id] given as a string *)

Section String_id.
Context {Item Request : Type}.
Implicit Types (execute : Request → Exn + Response Item)
  (self : Wrapper Item Request).

Lemma list_ascii_of_substring n m s :
  String.list_ascii_of_string (String.substring n m s)
  = take m (drop n (String.list_ascii_of_string s)).
Proof.
  revert n m. induction s as [|c s IH]; intros n m.
  - destruct n, m; done.
  - destruct n as [|n].
    + destruct m as [|m]; [done|]. simpl. by rewrite IH.
    + simpl. apply IH.
Qed.

Lemma length_list_ascii s : length (String.list_ascii_of_string s) = String.length s.
Proof. induction s as [|c s IH]; [done|]. simpl. by rewrite IH. Qed.

Lemma list_ascii_of_append (a b : string) :
  String.list_ascii_of_string (String.append a b)
  = String.list_ascii_of_string a ++ String.list_ascii_of_string b.
Proof. induction a as [|c a IH]; [done|]. simpl. by rewrite IH. Qed.

Lemma list_ascii_of_concat (cs : list string) :
  String.list_ascii_of_string (foldr String.append EmptyString cs)
  = concat (String.list_ascii_of_string <$> cs).
Proof.
  induction cs as [|c cs IH]; [done|].
  rewrite fmap_cons, concat_cons, <-IH. cbn [foldr].
  apply list_ascii_of_append.
Qed.

(** X11. An [id] given as one string is cut by position. When [id] is
    a string of more than 50 characters (such as a comma-separated
    list of identifiers), [yield_all] splits it like a list: a stream
    that ends normally has made one [list] call for each piece, in
    order, and the pieces are the substrings of 50 characters from the
    positions 0, 50, 100, ... (the last one shorter), whatever the
    characters at the cuts. Joined again, the pieces give the
    string. *)
Theorem string_id_is_cut_by_position
    execute self pb desc kwargs s fuel tr xs gf :
  kwargs !! "id" = Some (VStr s) →
  (50 < String.length s)%nat →
  drain (step_all execute self) fuel (yield_all pb desc kwargs)
  = Some (tr, xs, None, gf) →
  let pieces :=
    (λ i, String.substring i 50 s) <$> py_range 0 (String.length s) 50 in
  listed tr = (λ piece, batch_kw kwargs (VStr piece)) <$> pieces
  ∧ String.list_ascii_of_string <$> pieces = id_batches (String.list_ascii_of_string s)
  ∧ foldr String.append EmptyString pieces = s.
Proof.
  intros Hid Hlt Hd pieces.
  assert (String.list_ascii_of_string <$> pieces = id_batches (String.list_ascii_of_string s))
    as Hp.
  { unfold pieces, id_batches. rewrite length_list_ascii, <-list_fmap_compose.
    apply list_fmap_ext. intros _ i _. simpl.
    rewrite list_ascii_of_substring. unfold slice. do 2 f_equal. lia. }
  split_and!; [|done|].
  - destruct (split_listed execute self pb desc kwargs (VStr s) (String.length s)
                Hid eq_refl Hlt) as [_ Hl].
    rewrite (Hl _ _ _ _ Hd). unfold pieces. rewrite <-list_fmap_compose.
    apply list_fmap_ext. intros _ i _. simpl. do 3 f_equal. lia.
  - assert (String.list_ascii_of_string (foldr String.append EmptyString pieces)
            = String.list_ascii_of_string s) as H
      by (rewrite list_ascii_of_concat, Hp; apply concat_id_batches).
    apply (f_equal String.string_of_list_ascii) in H.
    by rewrite !String.string_of_list_ascii_of_string in H.
Qed.
End String_id.

(** ** What [list_all] returns *)

Section List_all_results.
Context {Item Request : Type}.
Implicit Types (execute : Request → Exn + Response Item)
  (self : Wrapper Item Request) (resource : Resource Item Request)
  (lst : Kwargs → Request)
  (lnext : Request → Response Item → option Request)
  (pages : list (Request * Response Item)).

(** X12. An error makes [list_all] lose what it had received. When the
    request is not split and the endpoint answers the pages [pages] and
    then raises an exception [e] other than the 404 [HttpError],
    [list_all] raises [e]: none of the items of [pages], which the
    stream had already delivered, is returned. *)
Theorem list_all_error_discards_items
    execute self lst lnext kwargs pages req e :
  list_ (_resource self) = Callable lst →
  list_next (_resource self) = Callable lnext →
  let kw := delete "desc" (delete "progress_bar" kwargs) in
  (kw !! "id" = None
   ∨ ∃ v n, kw !! "id" = Some v ∧ py_len v = Some n ∧ (n ≤ 50)%nat) →
  PageSeq execute lnext (Some (lst (<["maxResults" := VInt 50]> kw)))
    pages (Some req) →
  execute req = inl e →
  e ≠ HttpError 404 →
  ∃ tr n,
    (∀ fuel, (n ≤ fuel)%nat →
       list_all execute self fuel kwargs = Some (tr, inl e))
    ∧ fetched tr = pages.*2.
Proof.
  intros Hlist Hnext kw Hk Hp He Hne.
  set (pb := from_option truthy false (kwargs !! "progress_bar")).
  set (desc := default (VStr "") (kwargs !! "desc")).
  assert (step_page execute self (PWhile pb (Some req))
          = (failure req e, Raise e, PDone)) as Hs.
  { simpl. rewrite He. unfold handle, failure. destruct e as [c| | | |]; try done.
    destruct (Z.eqb_spec c 404); [congruence|done]. }
  pose proof (finishes_unsplit execute self pb desc kw _ _ _ _ Hk
    (advances_finishes _ _ _ _ _ _ _ _ _
       (advances_upto execute self lst lnext Hlist Hnext pb desc kw pages _ Hp)
       (finishes_raise _ _ _ _ _ Hs))) as [n Hn].
  eexists _, n. split.
  - intros fuel Hle. unfold list_all, yield_all_kw. fold pb desc kw.
    by rewrite (Hn fuel Hle).
  - change (EvList ?k :: ?t) with ([EvList k : Event Item Request] ++ t).
    rewrite !(fetched_app (Item:=Item)).
    assert (∀ ps : list (Request * Response Item),
              fetched (pages_trace lnext pb ps) = ps.*2) as H.
    { induction ps as [|[r p] ps IH]; [done|].
      unfold pages_trace in *. rewrite bind_cons, (fetched_app (Item:=Item)), IH.
      unfold page_events. by destruct pb. }
    rewrite H. simpl. unfold failure.
    destruct e; simpl; by rewrite (right_id_L [] (++)).
Qed.

(** X13. [get_subscriptions] gets every page. When the endpoint answers
    the pages [pages] to the request for the caller's subscriptions and
    then has no further page or raises the 404 [HttpError],
    [get_subscriptions] obtains exactly the items of these pages, in
    page order, from one [list] call with [part] "snippet", [mine]
    true and [maxResults] 50. *)
Theorem get_subscriptions_collects_pages
    execute resource lst lnext pages o :
  list_ resource = Callable lst →
  list_next resource = Callable lnext →
  let kw : Kwargs := <["maxResults" := VInt 50]> subscriptions_kwargs in
  PageSeq execute lnext (Some (lst kw)) pages o →
  (o = None ∨ ∃ req, o = Some req ∧ execute req = inl (HttpError 404)) →
  ∃ tr n,
    (∀ fuel, (n ≤ fuel)%nat →
       get_subscriptions_items execute resource fuel
       = Some (tr, inr (pages_items pages)))
    ∧ listed tr = [kw]
    ∧ kw !! "part" = Some (VStr "snippet") ∧ kw !! "mine" = Some (VBool true)
    ∧ executed tr = requests_of (pages, o).
Proof.
  intros Hlist Hnext kw Hp Ho.
  set (self := {| _resource := resource |}).
  destruct (finishes_normally execute self lst lnext Hlist Hnext false (VStr "")
              subscriptions_kwargs pages o Hp Ho) as (tr & Hf & Hl & He).
  assert (subscriptions_kwargs !! "id" = None) as Hid by done.
  pose proof (finishes_unsplit execute self false (VStr "") subscriptions_kwargs
                _ _ _ _ (or_introl Hid) Hf) as [n Hn].
  exists tr, n. split_and!; [|done..].
  intros fuel Hle. pose proof (Hn fuel Hle) as Hd. subst self.
  unfold get_subscriptions_items, wrapped_list_all, __init__.
  rewrite Hlist, Hnext. cbn [hasattr callable andb negb]. unfold list_all.
  change (yield_all_kw subscriptions_kwargs)
    with (yield_all (Item:=Item) (Request:=Request) false (VStr "")
            subscriptions_kwargs).
  by rewrite Hd.
Qed.
End List_all_results.

(** ** The further properties on concrete resources *)

(** X1 on three scripted pages, with [progress_bar] and [desc] given. *)
Lemma list_all_keeps_bar_arguments_witness :
  ∃ tr r,
    list_all (script_execute three_pages) (script_wrapper three_pages)
      20 bar_kwargs = Some (tr, r)
    ∧ Forall (λ kw : Kwargs,
        kw !! "progress_bar" = None ∧ kw !! "desc" = None
        ∧ kw !! "maxResults" = Some (VInt 50)
        ∧ ∀ k, k ≠ "id" → k ≠ "maxResults" → k ≠ "progress_bar" → k ≠ "desc" →
               kw !! k = bar_kwargs !! k) (listed tr).
Proof.
  assert (∃ tr r,
    list_all (script_execute three_pages) (script_wrapper three_pages)
      20 bar_kwargs = Some (tr, r)) as (tr & r & H)
    by (eexists _, _; vm_compute; reflexivity).
  exists tr, r. split; [exact H|].
  exact (list_all_keeps_bar_arguments _ _ _ _ _ _ H).
Defined.

(** X3 on 130 identifiers when the second batch fails with a 500: the
    first batch is delivered, the third is never requested. *)
Lemma split_error_aborts_witness :
  ∃ tr xs,
    finishes (step_all (failing_execute (HttpError 500)) echo_wrapper)
      (yield_all false (VStr "") (ids_kwargs 130)) tr xs
      (Some (HttpError 500)) ADone
    ∧ xs = batch_1
    ∧ executed tr = [batch_1; batch_2].
Proof.
  eexists _, _. split_and!.
  - apply (split_error_aborts (failing_execute (HttpError 500)) echo_wrapper
             false (VStr "") (ids_kwargs 130) (ids_of 130)
             [batch_1] batch_2 [batch_3] [echo_batch 130 batch_1]
             (EvList (batch_kw (ids_kwargs 130) (VList batch_2))
                :: failure batch_2 (HttpError 500))
             [] (HttpError 500) PDone).
    + vm_compute; reflexivity.
    + vm_compute; lia.
    + vm_compute; reflexivity.
    + constructor; [|constructor]. exists PDone.
      apply (finishes_intro _ 60). vm_compute; reflexivity.
    + apply (finishes_intro _ 5). vm_compute; reflexivity.
  - vm_compute; reflexivity.
  - vm_compute; reflexivity.
Defined.

(** X4 on 130 identifiers when the second batch is not found: the
    first and the third batch are delivered. *)
Lemma split_stream_items_witness :
  ∃ tr,
    finishes (step_all (failing_execute (HttpError 404)) echo_wrapper)
      (yield_all false (VStr "") (ids_kwargs 130)) tr
      (batch_1 ++ batch_3) None ADone
    ∧ length (listed tr) = 3%nat
    ∧ executed tr = [batch_1; batch_2; batch_3].
Proof.
  destruct (split_stream_items (failing_execute (HttpError 404)) echo_wrapper
              echo_list echo_list_next eq_refl eq_refl
              false (VStr "") (ids_kwargs 130) (ids_of 130)
              [([(batch_1, echo_page batch_1)], None);
               ([], Some batch_2);
               ([(batch_3, echo_page batch_3)], None)])
    as (tr & Hf & Hl & He).
  - vm_compute; reflexivity.
  - vm_compute; lia.
  - assert (id_batches (ids_of 130) = [batch_1; batch_2; batch_3]) as ->
      by (vm_compute; reflexivity).
    constructor; [split|constructor; [split|constructor; [split|constructor]]].
    + exact (PageSeq_cons _ _ batch_1 (echo_page batch_1) [] None eq_refl
               (PageSeq_nil _ _ None)).
    + left. reflexivity.
    + exact (PageSeq_nil _ _ (Some batch_2)).
    + right. exists batch_2. split; reflexivity.
    + exact (PageSeq_cons _ _ batch_3 (echo_page batch_3) [] None eq_refl
               (PageSeq_nil _ _ None)).
    + left. reflexivity.
  - exists tr. split_and!.
    + exact Hf.
    + rewrite Hl. reflexivity.
    + rewrite He. reflexivity.
Defined.

(** X6 on three scripted pages with the bar enabled: three updates. *)
Lemma page_progress_per_fetch_witness :
  progress (run (step_all (script_execute three_pages)
                   (script_wrapper three_pages)) 20
              (yield_all true (VStr "") part_snippet)).1.1
  = [(PageBar, 3%Z); (PageBar, 3%Z); (PageBar, 3%Z)].
Proof.
  apply (page_progress_per_fetch (script_execute three_pages)
           (script_wrapper three_pages) true (VStr "") part_snippet 20
           (or_introl eq_refl)).
  repeat (constructor; [split; [discriminate|reflexivity]|]). constructor.
Defined.

(** X7 on 120 identifiers: three [list] calls. *)
Lemma split_requests_in_batch_order_witness :
  ∃ tr xs gf,
    drain (step_all echo_execute echo_wrapper) 200
      (yield_all false (VStr "") (ids_kwargs 120))
    = Some (tr, xs, None, gf)
    ∧ length (listed tr) = 3%nat.
Proof.
  assert (∃ tr xs gf,
    drain (step_all echo_execute echo_wrapper) 200
      (yield_all false (VStr "") (ids_kwargs 120))
    = Some (tr, xs, None, gf)) as (tr & xs & gf & H)
    by (eexists _, _, _; vm_compute; reflexivity).
  exists tr, xs, gf. split; [exact H|].
  destruct (split_requests_in_batch_order echo_execute echo_wrapper
              false (VStr "") (ids_kwargs 120) (VList (ids_of 120)) 120)
    as [_ Hl].
  - vm_compute; reflexivity.
  - vm_compute; reflexivity.
  - lia.
  - rewrite (Hl _ _ _ _ H). reflexivity.
Defined.

(** X8 on two pages of videos: on day 1000 the loop keeps the videos
    of the days 900, 800 and 700, stops at the one of day 100, and the
    third request, which would fail, is never made. *)
Lemma get_videos_stops_at_first_old_witness :
  ∃ tr,
    (∃ n, ∀ fuel, (n ≤ fuel)%nat →
       get_videos_items (script_execute videos_script) Z.of_nat
         (script_resource videos_script) 1000 fuel "PL"
       = Some (tr, inr [900; 800; 700]%nat))
    ∧ executed tr = [0; 1]%nat.
Proof.
  destruct (get_videos_stops_at_first_old (script_execute videos_script)
              Z.of_nat (script_resource videos_script) script_list
              (script_list_next videos_script) 1000 "PL"
              [(0, page_of [900; 800])]%nat 1%nat (page_of [700; 100; 50]%nat)
              [700]%nat 100%nat [50]%nat eq_refl eq_refl
              (PageSeq_cons _ _ 0%nat (page_of [900; 800]%nat) _ (Some 1%nat)
                 eq_refl (PageSeq_nil _ _ (Some 1%nat)))
              eq_refl eq_refl
              ltac:(repeat constructor; vm_compute; discriminate)
              ltac:(vm_compute; reflexivity))
    as (tr & Hn & He & _).
  exists tr. split; [exact Hn|exact He].
Defined.

(** X9 on three scripted pages of recent items. *)
Lemma get_videos_keeps_recent_witness :
  ∃ tr n, ∀ fuel, (n ≤ fuel)%nat →
    get_videos_items (script_execute three_pages) Z.of_nat
      (script_resource three_pages) 300 fuel "PL"
    = Some (tr, inr [1; 2; 3]%nat).
Proof.
  exact (get_videos_keeps_recent (script_execute three_pages)
           Z.of_nat (script_resource three_pages) script_list
           (script_list_next three_pages) 300 "PL"
           [(0, page_of [1; 2]); (1, page_of []); (2, page_of [3])]%nat None
           eq_refl eq_refl
           (PageSeq_cons _ _ 0%nat (page_of [1; 2]%nat) _ None eq_refl
              (PageSeq_cons _ _ 1%nat (page_of []) _ None eq_refl
                 (PageSeq_cons _ _ 2%nat (page_of [3%nat]) [] None eq_refl
                    (PageSeq_nil _ _ None))))
           (or_introl eq_refl)
           ltac:(repeat constructor; vm_compute; discriminate)).
Defined.

(** X10 on 120 video ids: three requests. *)
Lemma get_video_durations_requests_witness :
  ∃ tr xs,
    get_video_durations_items echo_execute echo_resource 200 (ids_of 120)
    = Some (tr, inr xs)
    ∧ length (listed tr) = 3%nat.
Proof.
  assert (∃ tr xs,
    get_video_durations_items echo_execute echo_resource 200 (ids_of 120)
    = Some (tr, inr xs)) as (tr & xs & H)
    by (eexists _, _; vm_compute; reflexivity).
  exists tr, xs. split; [exact H|].
  destruct (get_video_durations_requests echo_execute echo_resource 200
              (ids_of 120) tr xs) as [Hl _].
  - vm_compute; lia.
  - exact H.
  - rewrite Hl. reflexivity.
Defined.

(** X11 on a comma-separated string of 65 characters: the cut falls
    inside the fifth identifier. *)
Lemma string_id_is_cut_by_position_witness :
  ∃ tr xs gf,
    drain (step_all echo_execute echo_wrapper) 20
      (yield_all false (VStr "") long_id_kwargs)
    = Some (tr, xs, None, gf)
    ∧ listed tr
      = [batch_kw long_id_kwargs
           (VStr "aaaaaaaaaa,bbbbbbbbbb,cccccccccc,dddddddddd,eeeeee");
         batch_kw long_id_kwargs (VStr "eeee,ffffffffff")].
Proof.
  assert (∃ tr xs gf,
    drain (step_all echo_execute echo_wrapper) 20
      (yield_all false (VStr "") long_id_kwargs)
    = Some (tr, xs, None, gf)) as (tr & xs & gf & H)
    by (eexists _, _, _; vm_compute; reflexivity).
  exists tr, xs, gf. split; [exact H|].
  destruct (string_id_is_cut_by_position echo_execute echo_wrapper
              false (VStr "") long_id_kwargs long_id 20 tr xs gf)
    as (Hl & _ & _).
  - vm_compute; reflexivity.
  - vm_compute; lia.
  - exact H.
  - rewrite Hl. reflexivity.
Defined.

(** X12 on one page followed by a 500: [list_all] raises and returns
    none of the two items fetched. *)
Lemma list_all_error_discards_items_witness :
  ∃ tr n,
    (∀ fuel, (n ≤ fuel)%nat →
       list_all (script_execute (page_then_error 500))
         (script_wrapper (page_then_error 500)) fuel part_snippet
       = Some (tr, inl (HttpError 500)))
    ∧ fetched tr = [page_of [1; 2]%nat].
Proof.
  exact (list_all_error_discards_items (script_execute (page_then_error 500))
           (script_wrapper (page_then_error 500)) script_list
           (script_list_next (page_then_error 500)) part_snippet
           [(0, page_of [1; 2])]%nat 1%nat (HttpError 500)
           eq_refl eq_refl (or_introl eq_refl)
           (PageSeq_cons _ _ 0%nat (page_of [1; 2]%nat) _ (Some 1%nat) eq_refl
              (PageSeq_nil _ _ (Some 1%nat)))
           eq_refl ltac:(discriminate)).
Defined.

(** X13 on three scripted pages of subscriptions. *)
Lemma get_subscriptions_collects_pages_witness :
  ∃ tr n,
    (∀ fuel, (n ≤ fuel)%nat →
       get_subscriptions_items (script_execute three_pages)
         (script_resource three_pages) fuel
       = Some (tr, inr [1; 2; 3]%nat))
    ∧ executed tr = [0; 1; 2]%nat.
Proof.
  destruct (get_subscriptions_collects_pages (script_execute three_pages)
              (script_resource three_pages) script_list
              (script_list_next three_pages)
              [(0, page_of [1; 2]); (1, page_of []); (2, page_of [3])]%nat None
              eq_refl eq_refl
              (PageSeq_cons _ _ 0%nat (page_of [1; 2]%nat) _ None eq_refl
                 (PageSeq_cons _ _ 1%nat (page_of []) _ None eq_refl
                    (PageSeq_cons _ _ 2%nat (page_of [3%nat]) [] None eq_refl
                       (PageSeq_nil _ _ None))))
              (or_introl eq_refl)) as (tr & n & Hn & _ & _ & _ & He).
  exists tr, n. split; [exact Hn|exact He].
Defined.

(** ** The requests of [get_upload_playlists] *)

Section Upload_playlists.
Context {Item Request : Type}.
Implicit Types (execute : Request → Exn + Response Item)
  (self : Wrapper Item Request) (resource : Resource Item Request)
  (tr ev : list (Event Item Request)).

Lemma drain_plain_listed execute self fuel (g : @PageGen Item Request)
    tr xs r gf :
  (∀ pb desc kw, g ≠ PStart pb desc kw) →
  drain (step_all execute self) fuel (APlain g) = Some (tr, xs, r, gf) →
  listed tr = [].
Proof.
  revert g tr xs. induction fuel as [|fuel IH]; intros g tr xs Hg H; [done|].
  simpl in H.
  destruct (step_page execute self g) as [[ev sig] g1] eqn:Hp.
  destruct (step_page_started _ _ _ _ _ _ Hp) as [Hg1 Hev].
  specialize (Hev Hg). destruct sig.
  - destruct (drain _ fuel _) as [[[[ev' xs'] r'] g2]|] eqn:E; [|done].
    simplify_eq. by rewrite listed_app, Hev, (IH _ _ _ Hg1 E).
  - destruct (drain _ fuel _) as [[[[ev' xs'] r'] g2]|] eqn:E; [|done].
    simplify_eq. by rewrite listed_app, Hev, (IH _ _ _ Hg1 E).
  - by simplify_eq.
  - by simplify_eq.
Qed.

Lemma drain_unsplit_listed execute self pb desc kwargs fuel tr xs gf :
  (kwargs !! "id" = None
   ∨ ∃ v n, kwargs !! "id" = Some v ∧ py_len v = Some n ∧ (n ≤ 50)%nat) →
  drain (step_all execute self) fuel (yield_all pb desc kwargs)
  = Some (tr, xs, None, gf) →
  listed tr = [<["maxResults" := VInt 50]> kwargs].
Proof.
  intros Hk H. destruct fuel as [|[|fuel]]; [done| |].
  - rewrite (drain_tau _ _ _ _ _ (step_all_unsplit execute self pb desc kwargs Hk))
      in H. done.
  - rewrite (drain_tau _ _ _ _ _ (step_all_unsplit execute self pb desc kwargs Hk))
      in H.
    destruct (drain _ (S fuel) _) as [[[[ev' xs'] r'] g2]|] eqn:E; [|done].
    cbn [fmap option_fmap option_map] in H. simplify_eq.
    simpl in E. destruct (call (list_ (_resource self))) as [e|lst]; [done|].
    destruct (drain _ fuel _) as [[[[ev'' xs''] r''] g3]|] eqn:E'; [|done].
    simplify_eq. simpl. f_equal.
    by apply (drain_plain_listed execute self fuel
                (PWhile pb (Some (lst (<["maxResults" := VInt 50]> kwargs))))
                ev'' xs None gf).
Qed.

(** X14. [get_upload_playlists] asks for every channel once. When it
    obtains its items, the [list] calls it made are: for at most 50
    channel ids, a single call with all of them; for more, one call
    for each slice of 50 ids, in order. Every call has [part]
    "contentDetails" and [maxResults] 50 and no other key besides
    [id]. *)
Theorem get_upload_playlists_requests execute resource fuel channeld_ids tr xs :
  get_upload_playlists_items execute resource fuel channeld_ids
  = Some (tr, inr xs) →
  let kw_of (ids : list string) : Kwargs :=
    <["maxResults" := VInt 50]>
      (<["id" := VList ids]> (<["part" := VStr "contentDetails"]> ∅)) in
  listed tr
  = (if decide (length channeld_ids ≤ 50)%nat then [kw_of channeld_ids]
     else kw_of <$> id_batches channeld_ids).
Proof.
  intros H kw_of.
  unfold get_upload_playlists_items, wrapped_list_all in H.
  destruct (__init__ resource) as [e|self]; [by simplify_eq|].
  unfold list_all, yield_all_kw in H.
  assert (delete "desc" (delete "progress_bar"
            (<["part" := VStr "contentDetails"]>
               (<["id" := VList channeld_ids]> ∅)))
          = (<["part" := VStr "contentDetails"]>
               (<["id" := VList channeld_ids]> ∅) : Kwargs)) as Hkw.
  { apply map_eq. intros k.
    repeat (rewrite ?lookup_delete, ?lookup_insert, ?lookup_empty;
            try case_decide); simplify_eq; done. }
  rewrite Hkw in H.
  assert ((<["part" := VStr "contentDetails"]>
             (<["id" := VList channeld_ids]> ∅) : Kwargs) !! "id"
          = Some (VList channeld_ids)) as Hid
    by (by rewrite lookup_insert_ne, lookup_insert_eq).
  destruct (drain _ fuel _) as [[[[tr' xs'] o] gf]|] eqn:Hd; [|done].
  destruct o; simplify_eq.
  case_decide as Hlen.
  - rewrite (drain_unsplit_listed _ _ _ _ _ _ _ _ _
               (or_intror (ex_intro _ (VList channeld_ids)
                  (ex_intro _ (length channeld_ids)
                     (conj Hid (conj eq_refl Hlen))))) Hd).
    unfold kw_of. by f_equal.
  - destruct (split_listed execute self false (VStr "") _ (VList channeld_ids)
                (length channeld_ids) Hid eq_refl ltac:(lia)) as [_ Hl].
    rewrite (Hl _ _ _ _ Hd). unfold id_batches. rewrite <-list_fmap_compose.
    apply list_fmap_ext. intros _ i _. simpl. unfold batch_kw, kw_of. by f_equal.
Qed.
End Upload_playlists.

(** X14 on 120 channel ids: three requests. *)
Lemma get_upload_playlists_requests_witness :
  ∃ tr xs,
    get_upload_playlists_items echo_execute echo_resource 200 (ids_of 120)
    = Some (tr, inr xs)
    ∧ length (listed tr) = 3%nat.
Proof.
  assert (∃ tr xs,
    get_upload_playlists_items echo_execute echo_resource 200 (ids_of 120)
    = Some (tr, inr xs)) as (tr & xs & H)
    by (eexists _, _; vm_compute; reflexivity).
  exists tr, xs. split; [exact H|].
  rewrite (get_upload_playlists_requests echo_execute echo_resource 200
             (ids_of 120) tr xs H).
  reflexivity.
Defined.

(** * The calls and the updates in their order *)

(** ** Which [list] call is given what *)

Section Calls_in_order.
Context {Item Request : Type}.
Variable execute : Request → Exn + Response Item.
Variable self : Wrapper Item Request.
Implicit Types tr ev : list (Event Item Request).

Local Abbreviation step_page := (step_page execute self).
Local Abbreviation step_all := (step_all execute self).

Lemma run_done n :
  run step_all n ADone = ([], [], ADone).
Proof.
  induction n as [|n IH]; [done|].
  by rewrite (run_step step_all n ADone [] Return ADone eq_refl), IH.
Qed.

Lemma run_plain_listed n (g : @PageGen Item Request) :
  (∀ pb desc kw, g ≠ PStart pb desc kw) →
  listed (run step_all n (APlain g)).1.1 = [].
Proof.
  revert g. induction n as [|n IH]; intros g Hg; [done|].
  destruct (step_page g) as [[ev sig] g1] eqn:Hp.
  destruct (step_page_started _ _ _ _ _ _ Hp) as [Hg1 Hev].
  specialize (Hev Hg). destruct sig.
  - rewrite (run_step step_all n (APlain g) ev (Yield x) (APlain g1))
      by (simpl; by rewrite Hp).
    simpl. by rewrite listed_app, Hev, (IH _ Hg1).
  - rewrite (run_step step_all n (APlain g) ev Tau (APlain g1))
      by (simpl; by rewrite Hp).
    simpl. by rewrite listed_app, Hev, (IH _ Hg1).
  - rewrite (run_step step_all n (APlain g) ev Return ADone)
      by (simpl; by rewrite Hp).
    simpl. by rewrite run_done, listed_app, Hev.
  - rewrite (run_step step_all n (APlain g) ev (Raise e) ADone)
      by (simpl; by rewrite Hp).
    simpl. by rewrite run_done, listed_app, Hev.
Qed.

Lemma run_unsplit_listed pb desc kwargs n :
  (kwargs !! "id" = None
   ∨ ∃ v len, kwargs !! "id" = Some v ∧ py_len v = Some len ∧ (len ≤ 50)%nat) →
  listed (run step_all n (yield_all pb desc kwargs)).1.1
  `prefix_of` [<["maxResults" := VInt 50]> kwargs].
Proof.
  intros Hk. destruct n as [|n]; [apply prefix_nil|].
  rewrite (run_step _ _ _ _ _ _ (step_all_unsplit execute self pb desc kwargs Hk)).
  simpl. destruct n as [|n]; [apply prefix_nil|].
  destruct (call (list_ (_resource self))) as [e|lst] eqn:Hc.
  - rewrite (run_step step_all n (APlain (_yield_all pb desc kwargs)) []
               (Raise e) ADone) by (simpl; by rewrite Hc).
    simpl. rewrite run_done. apply prefix_nil.
  - rewrite (run_step step_all n (APlain (_yield_all pb desc kwargs))
               [EvList (<["maxResults" := VInt 50]> kwargs)] Tau
               (APlain (PWhile pb (Some (lst (<["maxResults" := VInt 50]> kwargs))))))
      by (simpl; by rewrite Hc).
    simpl. by rewrite run_plain_listed.
Qed.

Lemma list_calls_of_unsplit kwargs :
  (kwargs !! "id" = None
   ∨ ∃ v len, kwargs !! "id" = Some v ∧ py_len v = Some len ∧ (len ≤ 50)%nat) →
  list_calls_of kwargs = [<["maxResults" := VInt 50]> kwargs].
Proof.
  unfold list_calls_of. intros [->|(v & len & -> & -> & Hle)]; [done|].
  by rewrite (proj2 (Nat.ltb_ge 50 len)).
Qed.

Lemma list_calls_of_split kwargs ids len :
  kwargs !! "id" = Some ids → py_len ids = Some len → (50 < len)%nat →
  list_calls_of kwargs
  = (λ i, batch_kw kwargs (py_slice ids i (i + 50))) <$> py_range 0 len 50.
Proof.
  unfold list_calls_of. intros -> -> Hlt. by rewrite (proj2 (Nat.ltb_lt 50 len)).
Qed.

(** C5, as amended (frame of the [list] calls). However far the stream
    of [yield_all] is run, its [list] calls are the first calls of
    [list_calls_of kwargs], in that order: each was given the caller's
    keyword arguments with [maxResults] set to 50 and, when the
    identifiers are split, the call for the batch of rank [j] has [id]
    replaced by the slice [ids[50 j : 50 j + 50]], the batch of that
    call; every other key is passed on as the caller gave it. A stream
    that ends normally has made all these calls. *)
Theorem list_calls_frame pb desc kwargs n :
  let tr := (run step_all n (yield_all pb desc kwargs)).1.1 in
  Forall (list_call_ok kwargs) (listed tr)
  ∧ listed tr `prefix_of` list_calls_of kwargs
  ∧ ∀ fuel tr' xs gf,
      drain step_all fuel (yield_all pb desc kwargs) = Some (tr', xs, None, gf) →
      listed tr' = list_calls_of kwargs.
Proof.
  intros tr. split; [by apply run_listed|].
  destruct (kwargs !! "id") as [ids|] eqn:Hid.
  - destruct (py_len ids) as [len|] eqn:Hlen.
    + destruct (Nat.ltb_spec 50 len) as [Hlt|Hle].
      * rewrite (list_calls_of_split _ _ _ Hid Hlen Hlt).
        destruct (split_listed execute self pb desc kwargs ids len Hid Hlen Hlt)
          as [H1 H2].
        split; [apply H1|apply H2].
      * assert (kwargs !! "id" = None
                ∨ ∃ v len, kwargs !! "id" = Some v ∧ py_len v = Some len
                           ∧ (len ≤ 50)%nat) as Hk
          by (right; by exists ids, len).
        rewrite (list_calls_of_unsplit _ Hk). split.
        -- by apply run_unsplit_listed.
        -- intros fuel tr' xs gf Hd. by eapply drain_unsplit_listed.
    + assert (step_all (yield_all pb desc kwargs) = ([], Raise TypeError, ADone))
        as Hs by (simpl; by rewrite Hid, Hlen).
      unfold list_calls_of. rewrite Hid, Hlen. split.
      * unfold tr. destruct n as [|n]; [apply prefix_nil|].
        rewrite (run_step _ _ _ _ _ _ Hs). simpl. rewrite run_done.
        apply prefix_nil.
      * intros [|fuel] tr' xs gf Hd; [done|]. simpl in Hd.
        by rewrite Hid, Hlen in Hd.
  - assert (kwargs !! "id" = None
            ∨ ∃ v len, kwargs !! "id" = Some v ∧ py_len v = Some len
                       ∧ (len ≤ 50)%nat) as Hk by by left.
    rewrite (list_calls_of_unsplit _ Hk). split.
    + by apply run_unsplit_listed.
    + intros fuel tr' xs gf Hd. by eapply drain_unsplit_listed.
Qed.
End Calls_in_order.

(** ** When the batch bar is updated *)

Section Updates_in_order.
Context {Item Request : Type}.
Variable execute : Request → Exn + Response Item.
Variable self : Wrapper Item Request.
Implicit Types tr ev : list (Event Item Request).

Local Abbreviation step_page := (step_page execute self).
Local Abbreviation step_all := (step_all execute self).

Lemma with_batch_updates_app total tr ev :
  with_batch_updates total (tr ++ ev)
  = with_batch_updates total tr ++ with_batch_updates total ev.
Proof. apply bind_app. Qed.

Lemma reported_app total tr ev :
  tr = with_batch_updates total (silent tr) →
  ev = with_batch_updates total (silent ev) →
  tr ++ ev = with_batch_updates total (silent (tr ++ ev)).
Proof.
  intros Ht Hev. by rewrite silent_app, with_batch_updates_app, <-Ht, <-Hev.
Qed.

Lemma reported_failure total req e :
  e ≠ HttpError 404 →
  [EvExecute req (inl e) : Event Item Request]
  = with_batch_updates total (silent [EvExecute req (inl e)]).
Proof.
  intros He. destruct e as [c| | | |]; try done.
  unfold with_batch_updates. simpl.
  destruct (Z.eqb_spec c 404); [congruence|done].
Qed.

(** One step keeps the updates of the batch bar in line with the
    batches that are over; a step that yields, returns or raises
    leaves no update to come. *)
Lemma step_all_reported total tr g ev sig g' :
  batch_reported total tr g →
  step_all g = (ev, sig, g') →
  batch_reported total (tr ++ ev) g'
  ∧ match sig with
    | Tau => True
    | Yield _ => tr ++ ev = with_batch_updates total (silent (tr ++ ev))
    | _ => g' = ADone
    end.
Proof.
  intros Hg Hs.
  destruct g as [pb desc kw|pb kw ids t [|i pending]
                |pb kw ids t pending inner|inner|]; simpl in Hs, Hg; try done.
  - destruct Hg as (-> & -> & ids & len & Hid & Hlen & Hlt & ->).
    rewrite Hid, Hlen, (proj2 (Nat.ltb_lt 50 len) Hlt) in Hs. simplify_eq.
    simpl. split; [|done]. split_and!; [done| |done].
    by rewrite py_range_50, length_fmap, length_seq, ceil50_of_nat.
  - destruct Hg as (-> & -> & Ht). simplify_eq.
    rewrite (right_id_L [] (++)). by simpl.
  - destruct Hg as (-> & -> & Ht). simplify_eq.
    rewrite (right_id_L [] (++)). by simpl.
  - destruct Hg as (-> & -> & Hi).
    destruct inner as [pbi desc kwi|pbi [req|]|pbi req res [|x rest]|];
      simpl in Hs; try done.
    + destruct Hi as [-> Ht].
      destruct (call (list_ (_resource self))) as [e|lst]; simplify_eq; simpl.
      * by rewrite (right_id_L [] (++)).
      * split; [|done]. split_and!; [done..|]. by apply reported_app.
    + destruct Hi as [-> Ht]. destruct (execute req) as [e|res].
      * unfold handle in Hs. destruct e as [c| | | |].
        -- destruct (Z.eqb_spec c 404) as [Hc|Hc]; simplify_eq; simpl.
           ++ split; [|done]. split_and!; [done..|]. by apply reported_app.
           ++ split; [|done]. apply reported_app; [done|].
              unfold with_batch_updates. simpl.
              by rewrite (proj2 (Z.eqb_neq c 404) Hc).
        -- simplify_eq. simpl. split; [|done]. by apply reported_app.
        -- simplify_eq. simpl. split; [|done]. by apply reported_app.
        -- simplify_eq. simpl. split; [|done]. by apply reported_app.
        -- simplify_eq. simpl. split; [|done]. by apply reported_app.
      * simplify_eq. simpl. split; [|done]. split_and!; [done..|].
        by apply reported_app.
    + destruct Hi as (-> & tr0 & req & res & -> & Ht). simplify_eq. simpl.
      split; [|done]. split_and!; [done..|].
      rewrite <-(assoc_L (++)). by apply reported_app.
    + destruct Hi as [-> Ht].
      destruct (call (list_next (_resource self))) as [e|lnext];
        simplify_eq; simpl.
      * by rewrite (right_id_L [] (++)).
      * split; [|done]. split_and!; [done..|].
        destruct (lnext req res) as [req'|] eqn:Hn.
        -- split; [done|]. by apply reported_app.
        -- split; [done|]. by exists tr, req, res.
    + destruct Hi as [-> Ht]. simplify_eq. simpl.
      rewrite (right_id_L [] (++)). by split_and!.
  - simplify_eq. by rewrite (right_id_L [] (++)).
Qed.

Lemma batch_reported_shape total tr g :
  batch_reported total tr g →
  tr = with_batch_updates total (silent tr)
  ∨ tr ++ [EvProgress BatchBar total] = with_batch_updates total (silent tr).
Proof.
  destruct g as [pb desc kw|pb kw ids t pending
                |pb kw ids t pending inner|inner|]; simpl; try done.
  - intros (_ & -> & _). by left.
  - intros (_ & _ & H). by left.
  - intros (_ & _ & Hi).
    destruct inner as [pbi desc kwi|pbi [req|]|pbi req res rest|];
      try (left; apply Hi); [|done].
    destruct Hi as (_ & tr0 & req & res & -> & Ht). right.
    rewrite silent_app, with_batch_updates_app, <-Ht.
    by rewrite <-(assoc_L (++)).
  - intros H. by left.
Qed.

Lemma run_reported total n tr g :
  batch_reported total tr g →
  batch_reported total (tr ++ (run step_all n g).1.1) (run step_all n g).2.
Proof.
  revert tr g. induction n as [|n IH]; intros tr g Hg.
  - simpl. by rewrite (right_id_L [] (++)).
  - destruct (step_all g) as [[ev sig] g1] eqn:Hs.
    rewrite (run_step _ _ _ _ _ _ Hs). simpl.
    destruct (step_all_reported _ _ _ _ _ _ Hg Hs) as [Hg1 _].
    rewrite (assoc_L (++)). by apply IH.
Qed.

Lemma drain_reported total fuel tr g tr' xs r gf :
  batch_reported total tr g →
  drain step_all fuel g = Some (tr', xs, r, gf) →
  tr ++ tr' = with_batch_updates total (silent (tr ++ tr')).
Proof.
  revert tr g tr' xs. induction fuel as [|fuel IH]; intros tr g tr' xs Hg H;
    [done|].
  simpl in H. destruct (step_all g) as [[ev sig] g1] eqn:Hs.
  destruct (step_all_reported _ _ _ _ _ _ Hg Hs) as [Hg1 Hsig].
  destruct sig.
  - destruct (drain _ fuel g1) as [[[[ev' xs'] r'] g2]|] eqn:E; [|done].
    simplify_eq. rewrite (assoc_L (++)). by eapply IH.
  - destruct (drain _ fuel g1) as [[[[ev' xs'] r'] g2]|] eqn:E; [|done].
    simplify_eq. rewrite (assoc_L (++)). by eapply IH.
  - simplify_eq. by simpl in Hg1.
  - simplify_eq. by simpl in Hg1.
Qed.

Lemma next_reported total fuel tr g ev p g' :
  batch_reported total tr g →
  next step_all fuel g = Some (ev, p, g') →
  batch_reported total (tr ++ ev) g'
  ∧ tr ++ ev = with_batch_updates total (silent (tr ++ ev)).
Proof.
  revert tr g ev. induction fuel as [|fuel IH]; intros tr g ev Hg H; [done|].
  simpl in H. destruct (step_all g) as [[ev1 sig] g1] eqn:Hs.
  destruct (step_all_reported _ _ _ _ _ _ Hg Hs) as [Hg1 Hsig].
  destruct sig; simplify_eq.
  - done.
  - destruct (next _ fuel g1) as [[[ev2 p'] g2]|] eqn:E; [|done]. simplify_eq.
    rewrite (assoc_L (++)). by eapply IH.
  - split; [done|]. by simpl in Hg1.
  - split; [done|]. by simpl in Hg1.
Qed.

Lemma pulls_reported total tr0 g tr xs g' :
  batch_reported total tr0 g →
  tr0 = with_batch_updates total (silent tr0) →
  pulls step_all g tr xs g' →
  batch_reported total (tr0 ++ tr) g'
  ∧ tr0 ++ tr = with_batch_updates total (silent (tr0 ++ tr)).
Proof.
  intros Hg Ht Hp. revert tr0 Hg Ht.
  induction Hp as [g|g fuel ev x g1 ev' xs g2 Hn Hp IH]; intros tr0 Hg Ht.
  - by rewrite (right_id_L [] (++)).
  - destruct (next_reported _ _ _ _ _ _ _ Hg Hn) as [Hg1 Ht1].
    rewrite (assoc_L (++)). by apply IH.
Qed.

(** C6, as amended (progress of a split stream). With more than 50
    identifiers and the progress bar enabled, the only progress updates
    of the stream of [yield_all] are updates of the batch bar, whose
    total is [ceil(len(ids) / 50)], one for each batch whose stream is
    over, made right after the event that ended it ([list_next] giving
    [None], or the 404 [HttpError]); the page bars of the streams of
    the batches are disabled and report nothing. This holds however
    far the stream is run (where only the update for a [list_next] that
    has just given [None] may be still to come), after every sequence
    of pulls of a consumer that then abandons the stream, and when the
    stream has ended, normally or with an exception. A stream that
    ends normally has made exactly [ceil(len(ids) / 50)] updates. *)
Theorem split_progress_per_batch desc kwargs ids len :
  kwargs !! "id" = Some ids → py_len ids = Some len → (50 < len)%nat →
  let total := ceil50 (Z.of_nat len) in
  let start : AllGen := yield_all true desc kwargs in
  (∀ n, Forall (λ p, p = (BatchBar, total))
          (progress (run step_all n start).1.1))
  ∧ (∀ fuel tr xs gf,
       drain step_all fuel start = Some (tr, xs, None, gf) →
       progress tr = replicate ((len + 49) / 50) (BatchBar, total))
  ∧ (∀ n, let tr := (run step_all n start).1.1 in
          tr = with_batch_updates total (silent tr)
          ∨ tr ++ [EvProgress BatchBar total]
            = with_batch_updates total (silent tr))
  ∧ (∀ tr xs g, pulls step_all start tr xs g →
                tr = with_batch_updates total (silent tr))
  ∧ (∀ fuel tr xs r gf,
       drain step_all fuel start = Some (tr, xs, r, gf) →
       tr = with_batch_updates total (silent tr)).
Proof.
  intros Hid Hlen Hlt total start.
  assert (batch_reported total ([] : list (Event Item Request)) start) as Hinv.
  { simpl. split_and!; [done..|]. by exists ids, len. }
  destruct (split_progress_kind_and_count execute self desc kwargs ids len
              Hid Hlen Hlt) as [H1 H2].
  split_and!; [exact H1|exact H2|..].
  - intros n tr. eapply batch_reported_shape.
    apply (run_reported total n [] start Hinv).
  - intros tr xs g Hp.
    by destruct (pulls_reported total [] start tr xs g Hinv eq_refl Hp).
  - intros fuel tr xs r gf Hd.
    apply (drain_reported total fuel [] start tr xs r gf Hinv Hd).
Qed.
End Updates_in_order.

(** C6 on 51 identifiers with the progress bar enabled: two batches,
    and an update of the batch bar right after the end of each. *)
Lemma split_progress_per_batch_witness :
  ∃ tr xs,
    drain (step_all echo_execute echo_wrapper) 100
      (yield_all true (VStr "") (ids_kwargs 51))
    = Some (tr, xs, None, ADone)
    ∧ progress tr = [(BatchBar, 2%Z); (BatchBar, 2%Z)]
    ∧ tr = with_batch_updates 2 (silent tr).
Proof.
  destruct (split_progress_per_batch echo_execute echo_wrapper (VStr "")
              (ids_kwargs 51) (VList (ids_of 51)) 51%nat
              eq_refl eq_refl ltac:(vm_compute; lia))
    as (_ & Hcount & _ & _ & Hplace).
  eexists _, _. split; [vm_compute; reflexivity|]. split.
  - eapply (Hcount 100%nat). vm_compute; reflexivity.
  - eapply (Hplace 100%nat). vm_compute; reflexivity.
Defined.

(** ** What [list_all] returns *)

Section List_all_returns.
Context {Item Request : Type}.
Variable execute : Request → Exn + Response Item.
Variable self : Wrapper Item Request.
Implicit Types tr : list (Event Item Request).

Local Abbreviation step_all := (step_all execute self).

(** A stream that ends normally is a list that [list_all] returns. *)
Lemma finishes_gives kwargs tr xs gf :
  finishes step_all (yield_all_kw kwargs) tr xs None gf →
  list_all_gives execute self kwargs tr xs.
Proof.
  intros Hf. pose proof Hf as [n Hn]. split_and!.
  - exists n. intros fuel Hle. unfold list_all. by rewrite (Hn fuel Hle).
  - intros fuel r H. unfold list_all in H.
    destruct (drain _ fuel _) as [[[[tr' xs'] o'] gf']|] eqn:Hd; [|done].
    pose proof (finishes_drain _ _ _ _ _ _ _ _ Hf Hd). by simplify_eq.
  - destruct (drain_pulls _ _ _ _ _ _ _ (Hn n (le_n n)))
      as (ev1 & g1 & ev2 & Hp & Hnx & ->).
    by exists ev1, g1, ev2, gf, n.
Qed.
End List_all_returns.

Section Claims_list_all_returns.
Context {Item Request : Type}.
Implicit Types (execute : Request → Exn + Response Item)
  (self : Wrapper Item Request)
  (lst : Kwargs → Request)
  (lnext : Request → Response Item → option Request).

(** C9 ([list_all] returns the stream of [yield_all], in its order).
    For an endpoint that answers a fixed sequence of pages and then has
    no further page or raises the 404 [HttpError], [list_all] returns:
    with a large enough budget every invocation gives one and the same
    list and one and the same trace, and no invocation gives anything
    else. The list is made of the items of the pages, in the order of
    the pages, batch after batch when the request is split; it is the
    sequence a consumer of [yield_all] gets element by element; and the
    stream is consumed once: the requests executed are those of the
    pages (and the ones answered by 404), each once, in order. *)
Theorem list_all_returns_stream execute self lst lnext kwargs :
  list_ (_resource self) = Callable lst →
  list_next (_resource self) = Callable lnext →
  let kw := delete "desc" (delete "progress_bar" kwargs) in
  (∀ pages o,
     (kw !! "id" = None
      ∨ ∃ v n, kw !! "id" = Some v ∧ py_len v = Some n ∧ (n ≤ 50)%nat) →
     PageSeq execute lnext (Some (lst (<["maxResults" := VInt 50]> kw)))
       pages o →
     (o = None ∨ ∃ req, o = Some req ∧ execute req = inl (HttpError 404)) →
     ∃ tr, list_all_gives execute self kwargs tr (pages_items pages)
           ∧ executed tr = requests_of (pages, o))
  ∧ (∀ (ids : list string)
       (runs : list (list (Request * Response Item) * option Request)),
     kw !! "id" = Some (VList ids) →
     (50 < length ids)%nat →
     Forall2 (λ b r,
       PageSeq execute lnext (Some (lst (batch_kw kw (VList b)))) r.1 r.2
       ∧ (r.2 = None
          ∨ ∃ req, r.2 = Some req ∧ execute req = inl (HttpError 404)))
       (id_batches ids) runs →
     ∃ tr, list_all_gives execute self kwargs tr (runs ≫= λ r, pages_items r.1)
           ∧ executed tr = runs ≫= requests_of).
Proof.
  intros Hlist Hnext kw.
  set (pb := from_option truthy false (kwargs !! "progress_bar")).
  set (desc := default (VStr "") (kwargs !! "desc")).
  split.
  - intros pages o Hk Hp Ho.
    destruct (finishes_normally execute self lst lnext Hlist Hnext pb desc
                kw pages o Hp Ho) as (tr & Hf & _ & He).
    exists tr. split; [|exact He].
    apply (finishes_gives execute self kwargs tr _ ADone).
    apply (finishes_unsplit execute self pb desc kw _ _ _ _ Hk Hf).
  - intros ids runs Hid Hlt Hruns.
    unfold id_batches in Hruns. apply Forall2_fmap_l in Hruns.
    destruct (finishes_batches_pages execute self lst lnext Hlist Hnext
                pb (delete "id" kw) (VList ids)
                (Z.of_nat (length (py_range 0 (length ids) 50))) _ _ Hruns)
      as (tr & Hf & _ & He).
    exists ([] ++ tr). split; [|exact He].
    apply (finishes_gives execute self kwargs _ _ ADone).
    eapply finishes_tau; [|exact Hf].
    unfold yield_all_kw. fold pb desc kw. simpl. rewrite Hid. simpl.
    by rewrite (proj2 (Nat.ltb_lt 50 (length ids)) Hlt).
Qed.
End Claims_list_all_returns.

(** C9 on three scripted pages: [list_all] returns [1; 2; 3] from the
    three requests, and the same at every invocation. *)
Lemma list_all_returns_stream_witness :
  ∃ tr,
    list_all_gives (script_execute three_pages) (script_wrapper three_pages)
      part_snippet tr [1; 2; 3]%nat
    ∧ executed tr = [0; 1; 2]%nat.
Proof.
  destruct (list_all_returns_stream (script_execute three_pages)
              (script_wrapper three_pages) script_list
              (script_list_next three_pages) part_snippet
              eq_refl eq_refl) as [H _].
  exact (H [(0, page_of [1; 2]); (1, page_of []); (2, page_of [3])]%nat None
           (or_introl eq_refl)
           (PageSeq_cons _ _ 0%nat (page_of [1; 2]%nat) _ None eq_refl
              (PageSeq_cons _ _ 1%nat (page_of []) _ None eq_refl
                 (PageSeq_cons _ _ 2%nat (page_of [3%nat]) [] None eq_refl
                    (PageSeq_nil _ _ None))))
           (or_introl eq_refl)).
Defined.

(** ** After a fetch has failed *)

Section Failed_fetch.
Context {Item Request : Type}.
Variable execute : Request → Exn + Response Item.
Variable self : Wrapper Item Request.
Implicit Types tr ev : list (Event Item Request).

Local Abbreviation step_page := (step_page execute self).
Local Abbreviation step_all := (step_all execute self).

Lemma only_not_found_app tr ev :
  only_not_found tr → only_not_found ev → only_not_found (tr ++ ev).
Proof. intros H1 H2. apply Forall_app. by split. Qed.

Lemma only_not_found_batch_update pb total :
  only_not_found (batch_update pb total : list (Event Item Request)).
Proof. destruct pb; by repeat constructor. Qed.

Lemma step_page_failed g ev sig g' :
  step_page g = (ev, sig, g') →
  only_not_found ev
  ∨ ∃ req e, ev = failure req e ∧ e ≠ HttpError 404 ∧ sig = Raise e.
Proof.
  intros Hs.
  destruct g as [pb desc kw|pb [req|]|pb req res [|x rest]|]; simpl in Hs.
  - destruct (call (list_ (_resource self))); simplify_eq; left;
      by repeat constructor.
  - destruct (execute req) as [e|res].
    + unfold handle in Hs. destruct e as [c|m| | |m].
      * destruct (Z.eqb_spec c 404) as [Hc|Hc]; simplify_eq.
        -- left. by repeat constructor.
        -- right. exists req, (HttpError c). split_and!; [done| |done].
           congruence.
      * simplify_eq. right. by exists req, (ValueError m).
      * simplify_eq. right. by exists req, TypeError.
      * simplify_eq. right. by exists req, AttributeError.
      * simplify_eq. right. by exists req, (OtherError m).
    + simplify_eq. left. destruct pb; by repeat constructor.
  - simplify_eq. left. constructor.
  - destruct (call (list_next (_resource self))); simplify_eq; left;
      by repeat constructor.
  - simplify_eq. left. constructor.
  - simplify_eq. left. constructor.
Qed.

Lemma step_all_failed g ev sig g' :
  step_all g = (ev, sig, g') →
  only_not_found ev
  ∨ ∃ req e, ev = failure req e ∧ e ≠ HttpError 404 ∧ sig = Raise e
             ∧ g' = ADone.
Proof.
  intros Hs.
  destruct g as [pb desc kw|pb kw ids t [|i pending]
                |pb kw ids t pending inner|inner|]; simpl in Hs.
  - left. destruct (kw !! "id") as [v|]; [|simplify_eq; constructor].
    destruct (py_len v) as [len|]; [|simplify_eq; constructor].
    destruct (50 <? len)%nat; simplify_eq; constructor.
  - simplify_eq. left. constructor.
  - simplify_eq. left. constructor.
  - destruct (step_page inner) as [[evi sigi] inner'] eqn:Hp.
    destruct (step_page_failed _ _ _ _ Hp) as [Hev|(req & e & -> & He & ->)].
    + left. destruct sigi; simplify_eq; [done..| |done].
      apply only_not_found_app; [done|apply only_not_found_batch_update].
    + simplify_eq. right. by exists req, e.
  - destruct (step_page inner) as [[evi sigi] inner'] eqn:Hp.
    destruct (step_page_failed _ _ _ _ Hp) as [Hev|(req & e & -> & He & ->)].
    + left. by destruct sigi; simplify_eq.
    + simplify_eq. right. by exists req, e.
  - simplify_eq. left. constructor.
Qed.

Lemma run_failed n g :
  let r := run step_all n g in
  only_not_found r.1.1
  ∨ (r.2 = ADone
     ∧ ∃ tr0 req e, r.1.1 = tr0 ++ failure req e
                    ∧ only_not_found tr0 ∧ e ≠ HttpError 404).
Proof.
  revert g. induction n as [|n IH]; intros g; [left; constructor|].
  destruct (step_all g) as [[ev sig] g1] eqn:Hs.
  rewrite (run_step _ _ _ _ _ _ Hs). cbn [fst snd].
  destruct (step_all_failed _ _ _ _ Hs) as [Hev|(req & e & -> & He & -> & ->)].
  - destruct (IH g1) as [H|(Hg & tr0 & req & e & Ht & H0 & He)].
    + left. by apply only_not_found_app.
    + right. split; [done|]. exists (ev ++ tr0), req, e.
      split_and!; [|by apply only_not_found_app|done].
      cbn [fst snd] in Ht. by rewrite Ht, (assoc_L (++)).
  - right. rewrite run_done. split; [done|].
    exists [], req, e. split_and!; [|constructor|done].
    cbn [fst snd]. by rewrite (right_id_L [] (++)).
Qed.

(** X2. Nothing follows a failed fetch. However far the stream of
    [yield_all] is run, either every [execute] that raised so far
    raised the 404 [HttpError], or the stream is over and its trace
    ends with the one [execute] that raised something else, followed
    by the log of the exception when this is an [HttpError] and by
    nothing when it is not: no [list] call, no request, no
    [list_next] and no progress update comes after it. *)
Theorem nothing_follows_a_failed_fetch pb desc kwargs n :
  let r := run step_all n (yield_all pb desc kwargs) in
  only_not_found r.1.1
  ∨ (r.2 = ADone
     ∧ ∃ tr0 req e, r.1.1 = tr0 ++ failure req e
                    ∧ only_not_found tr0 ∧ e ≠ HttpError 404).
Proof. apply run_failed. Qed.
End Failed_fetch.
